(** * The alliage sandbox: a shallow embedding of [src/index.ts]

    The development follows the source file top-down: the constants, the
    [Config] and [Params] interfaces, the [Sandbox] class with its private
    state, and then each method.  What the class consumes from Node and
    fs-extra ([path.resolve], [require.resolve], [fs.copy], ...) is a
    capability interface, the class [Host]; what it reads and writes (JSON
    files, the process environment, spawned commands) is the record
    [World].

    Strings are byte strings.  A JavaScript value read from a JSON file is
    a [json]; [undefined] is [None] of [option json]. *)

From Stdlib Require Import Ascii String.
From stdpp Require Import base option list strings gmap pretty.

Set Warnings "-register-all".

(** ** Results of calls that can throw *)

Inductive js_error : Type :=
  | Error (message : string)       (* [new Error(message)] *)
  | TypeError (message : string)   (* thrown by the runtime *)
  | IOError (path : string).       (* rejection of a file-system or resolution call *)

Inductive result (A : Type) : Type :=
  | Ok (a : A)
  | Throw (e : js_error).

Arguments Ok {A} a.
Arguments Throw {A} e.

Definition rbind {A B : Type} (r : result A) (k : A → result B) : result B :=
  match r with
  | Ok a => k a
  | Throw e => Throw e
  end.

Global Instance result_ret : MRet result := @Ok.
Global Instance result_bind : MBind result := fun A B k r => rbind r k.

Definition is_ok {A : Type} (r : result A) : bool :=
  match r with Ok _ => true | Throw _ => false end.

(** [xs.map(f)] for a callback that can throw: the first throw ends the
    loop. *)
Fixpoint map_result {A B : Type} (f : A → result B) (xs : list A) : result (list B) :=
  match xs with
  | [] => Ok []
  | x :: rest =>
      y ← f x;
      ys ← map_result f rest;
      Ok (y :: ys)
  end.

(** ** Strings: [String.prototype.split] and [Array.prototype.join] *)

Module Str.

(** [s.split(sep)] for a one-character separator: never the empty array,
    [''.split(':')] is [['']]. *)
Fixpoint split (sep : ascii) (s : string) : list string :=
  match s with
  | EmptyString => [""]
  | String c r =>
      if decide (c = sep) then "" :: split sep r
      else match split sep r with
           | h :: t => String c h :: t
           | [] => [String c ""]
           end
  end.

(** [xs.join(sep)]. *)
Fixpoint join (sep : string) (xs : list string) : string :=
  match xs with
  | [] => ""
  | x :: rest =>
      match rest with
      | [] => x
      | _ :: _ => x +:+ sep +:+ join sep rest
      end
  end.

Definition is_letter (c : ascii) : bool :=
  let n := nat_of_ascii c in
  ((65 <=? n) && (n <=? 90)) || ((97 <=? n) && (n <=? 122)).

(** The longest prefix of letters, and what follows it. *)
Fixpoint span_letters (s : string) : string * string :=
  match s with
  | EmptyString => ("", "")
  | String c r =>
      if is_letter c
      then let '(name, rest) := span_letters r in (String c name, rest)
      else ("", s)
  end.

Fixpoint has_char (c : ascii) (s : string) : bool :=
  match s with
  | EmptyString => false
  | String d r => if decide (d = c) then true else has_char c r
  end.

(** Whether [sub] occurs in [s]. *)
Fixpoint has_infix (sub s : string) : bool :=
  match s with
  | EmptyString => bool_decide (sub = "")
  | String _ r => String.prefix sub s || has_infix sub r
  end.

End Str.

(** ** JSON values, as [fs.readJson] returns them

    The class never computes with a number: it tests it in a condition and
    may use it as a property key.  A number is held as the text that
    [String] gives for it ([0] for both zeros, [1.5], [1e+21]), the text of
    a finite number. *)

Inductive json : Type :=
  | JNull
  | JBool (b : bool)
  | JNum (text : string)
  | JStr (s : string)
  | JArr (xs : list json)
  | JObj (props : list (string * json)).

(** A parsed object has one binding per key; a lookup takes the first. *)
Fixpoint obj_get (props : list (string * json)) (key : string) : option json :=
  match props with
  | [] => None
  | (k, v) :: rest => if decide (k = key) then Some v else obj_get rest key
  end.

(** [v.key] for the property names the class reads ([alliageManifest],
    [type], [name], [dependencies]): none of them is defined on a
    prototype, so only an object can have them; [null.key] throws. *)
Definition get_prop (v : json) (key : string) : result (option json) :=
  match v with
  | JNull => Throw (TypeError ("Cannot read properties of null (reading '" +:+ key +:+ "')"))
  | JObj props => Ok (obj_get props key)
  | _ => Ok None
  end.

(** Truthiness of a value in a condition. *)
Definition truthy (v : option json) : bool :=
  match v with
  | None | Some JNull => false
  | Some (JBool b) => b
  | Some (JNum text) => negb (bool_decide (text = "0"))
  | Some (JStr s) => negb (bool_decide (s = ""))
  | Some (JArr _) | Some (JObj _) => true
  end.

(** [String(v)], which is how a value becomes a property key.  A parsed
    object converts through the [toString] it inherits, unless a property
    of its own named [toString] hides it: read from a file, that property
    is no function, the conversion falls back on [valueOf], which gives no
    primitive either (an own [valueOf] is no function, the inherited one
    returns the object), and throws.  An array converts its elements,
    [null] giving the empty string, and joins them with commas. *)
Fixpoint to_string (v : json) : result string :=
  match v with
  | JNull => Ok "null"
  | JBool true => Ok "true"
  | JBool false => Ok "false"
  | JNum text => Ok text
  | JStr s => Ok s
  | JArr xs =>
      parts ← map_result (fun x => match x with
                                   | JNull => Ok ""
                                   | _ => to_string x
                                   end) xs;
      Ok (Str.join "," parts)
  | JObj props =>
      match obj_get props "toString" with
      | Some _ => Throw (TypeError "Cannot convert object to primitive value")
      | None => Ok "[object Object]"
      end
  end.

Definition to_property_key (v : option json) : result string :=
  match v with
  | None => Ok "undefined"
  | Some j => to_string j
  end.

(** [v === 'module']. *)
Definition strict_eq_str (v : option json) (s : string) : bool :=
  match v with
  | Some (JStr t) => bool_decide (t = s)
  | _ => false
  end.

Fixpoint chars_of (s : string) : list string :=
  match s with
  | EmptyString => []
  | String c r => String c "" :: chars_of r
  end.

Definition index_keys {A : Type} (xs : list A) : list (string * A) :=
  imap (fun (i : nat) (x : A) => (pretty i, x)) xs.

(** The own enumerable properties that [{...v}] copies. *)
Definition spread (v : json) : gmap string json :=
  match v with
  | JObj props => list_to_map props
  | JArr xs => list_to_map (index_keys xs)
  | JStr s => list_to_map (index_keys (JStr <$> chars_of s))
  | JNull | JBool _ | JNum _ => ∅
  end.

(** ** Constants of the module *)

Definition LINE_SEPARATOR : string :=
  String "226"%char (String "128"%char (String "168"%char "")).

Definition PARAGRAPH_SEPARATOR : string :=
  String "226"%char (String "128"%char (String "169"%char "")).

(** The four line terminators: line feed, carriage return, and, in the
    UTF-8 bytes of the string, the line and paragraph separators. *)
Definition no_line_terminator (s : string) : bool :=
  negb (Str.has_char "010"%char s) && negb (Str.has_char "013"%char s)
  && negb (Str.has_infix LINE_SEPARATOR s) && negb (Str.has_infix PARAGRAPH_SEPARATOR s).

(** [LOCAL_MODULE_PATTERN.test(s)].  The pattern: from the start of the
    string at most two dots, then one or more groups made of a slash and
    any characters, up to the end of the string.  The any-character class
    does not match a line terminator, so the pattern holds exactly when
    what follows the dots begins with a slash and has no line terminator. *)
Definition LOCAL_MODULE_PATTERN_test (s : string) : bool :=
  let after_dots :=
    match s with
    | String "."%char (String "."%char r) => r
    | String "."%char r => r
    | _ => s
    end in
  match after_dots with
  | String "/"%char r => no_line_terminator r
  | _ => false
  end.

Definition ALLIAGE_MODULES_FILE_NAME : string := "alliage-modules.json".
Definition ALLIAGE_SCRIPT_NAME : string := "alliage-scripts".
Definition NODE_MODULES_PATH : string := "node_modules".
Definition LINKED_MODULES_PATH : string := "linked_modules".
Definition BINS_PATH : string := NODE_MODULES_PATH +:+ "/.bin".
Definition DEFAULT_SANDBOX_PATH : string := "./.alliage-sandboxes".
Definition DEFAULT_PROJECT_PATH : string := "./".
Definition CONFIG_FILE_NAME : string := "alliage-sandbox-config.json".

Definition double_quote : ascii := "034"%char.

Definition NOT_INITIALIZED_MESSAGE : string :=
  "The sandbox must be initialized by calling the "
  +:+ String double_quote ("init()" +:+ String double_quote " method").

Inductive PLACEHOLDERS : Type := PROJECT_ROOT | SCENARIO_ROOT.

Definition PLACEHOLDERS_value (p : PLACEHOLDERS) : string :=
  match p with
  | PROJECT_ROOT => "projectRoot"
  | SCENARIO_ROOT => "scenarioRoot"
  end.

Inductive COMMAND : Type := INSTALL | BUILD | RUN.

Definition COMMAND_value (c : COMMAND) : string :=
  match c with
  | INSTALL => "install"
  | BUILD => "build"
  | RUN => "run"
  end.

(** ** Interfaces *)

Record Config : Type := mkConfig {
  command : string;
  copyFiles : list string;
  linkModules : gmap string string;
  alliageModules : list string;
}.

(** The content of a configuration file, read [as Config]: every key is
    optional, and the spread in [loadConfig] takes the keys that are there. *)
Record ConfigFile : Type := mkConfigFile {
  file_command : option string;
  file_copyFiles : option (list string);
  file_linkModules : option (gmap string string);
  file_alliageModules : option (list string);
}.

Record CommandOptions : Type := mkCommandOptions {
  options_env : option (gmap string string);
}.

Module Params.
Record t : Type := mk {
  scenarioPath : string;
  projectPath : option string;
  sandboxPath : option string;
  sandboxConfig : option string;
}.
End Params.

(** ** The world outside the class *)

(** What a path holds: a file that parses as JSON, or anything else (a
    directory, a link, a file that does not parse). *)
Inductive fnode : Type :=
  | JsonFile (content : json)
  | OtherNode.

(** One call of [cp.exec]. *)
Record Spawn : Type := mkSpawn {
  spawn_command : string;
  spawn_env : gmap string string;
  spawn_cwd : string;
}.

Record World : Type := mkWorld {
  files : gmap string fnode;
  process_env : gmap string string;
  (** [fs.remove] calls that were started and whose promise nobody holds *)
  pending_removals : list string;
  (** the calls of [cp.exec], latest first *)
  spawned : list Spawn;
}.

(** The capabilities the class consumes. *)
Class Host : Type := mkHost {
  path_resolve : list string → string;
  path_basename : string → string;
  require_resolve : gmap string fnode → list string → string → result string;
  fs_mkdirp : string → gmap string fnode → result (gmap string fnode);
  fs_copy : string → string → gmap string fnode → result (gmap string fnode);
  fs_ensureSymlink : string → string → gmap string fnode → result (gmap string fnode);
  (** the order in which reads issued together complete *)
  completion_order : list string → list string;
  (** whether the object [cp.exec] returns has an [on] method *)
  exec_has_on : bool;
}.

(** ** The class and its private state *)

Record Sandbox : Type := mkSandbox {
  scenarioPath : string;
  sandboxPath : string;
  projectPath : string;
  configFileName : string;
  isInitialized : bool;
  config : Config;
  sandboxDirectory : string;
}.

Definition set_isInitialized (b : bool) (this : Sandbox) : Sandbox :=
  mkSandbox (scenarioPath this) (sandboxPath this) (projectPath this)
    (configFileName this) b (config this) (sandboxDirectory this).

Definition set_config (c : Config) (this : Sandbox) : Sandbox :=
  mkSandbox (scenarioPath this) (sandboxPath this) (projectPath this)
    (configFileName this) (isInitialized this) c (sandboxDirectory this).

Definition set_copyFiles (v : list string) (c : Config) : Config :=
  mkConfig (command c) v (linkModules c) (alliageModules c).

Definition set_alliageModules (v : list string) (c : Config) : Config :=
  mkConfig (command c) (copyFiles c) (linkModules c) v.

Definition set_linkModules (v : gmap string string) (c : Config) : Config :=
  mkConfig (command c) (copyFiles c) v (alliageModules c).

Definition set_command (v : string) (c : Config) : Config :=
  mkConfig v (copyFiles c) (linkModules c) (alliageModules c).

Definition set_files (f : gmap string fnode) (w : World) : World :=
  mkWorld f (process_env w) (pending_removals w) (spawned w).

(** ** Methods run on a state: the object and the world *)

Record State : Type := mkState {
  this : Sandbox;
  world : World;
}.

Definition M (A : Type) : Type := State → result A * State.

Definition ret {A : Type} (a : A) : M A := fun st => (Ok a, st).

Definition throw {A : Type} (e : js_error) : M A := fun st => (Throw e, st).

Definition bind {A B : Type} (m : M A) (k : A → M B) : M B :=
  fun st =>
    match m st with
    | (Ok a, st') => k a st'
    | (Throw e, st') => (Throw e, st')
    end.

Definition lift {A : Type} (r : result A) : M A := fun st => (r, st).

Definition get_state : M State := fun st => (Ok st, st).

Definition update_this (f : Sandbox → Sandbox) : M unit :=
  fun st => (Ok tt, mkState (f (this st)) (world st)).

Definition update_world (f : World → World) : M unit :=
  fun st => (Ok tt, mkState (this st) (f (world st))).

Global Instance M_ret : MRet M := @ret.
Global Instance M_bind : MBind M := fun A B k m => bind m k.

Fixpoint for_each {A : Type} (f : A → M unit) (xs : list A) : M unit :=
  match xs with
  | [] => ret tt
  | x :: rest => f x;; for_each f rest
  end.

Fixpoint fold_result {A B : Type} (f : B → A → result B) (acc : B) (xs : list A) : result B :=
  match xs with
  | [] => Ok acc
  | x :: rest => acc' ← f acc x; fold_result f acc' rest
  end.

(** ** Promises, child processes, command handles *)

(** A promise whose executor got [resolve]: [settlements] counts the times
    it went from pending to fulfilled (the times its waiters were released),
    [resolve_calls] the times [resolve] was called. *)
Record Promise : Type := mkPromise {
  fulfilled : bool;
  settlements : nat;
  resolve_calls : nat;
}.

Definition pending_promise : Promise := mkPromise false 0 0.

(** Calling [resolve]: only the first call settles the promise. *)
Definition Promise_resolve (p : Promise) : Promise :=
  if fulfilled p
  then mkPromise true (settlements p) (S (resolve_calls p))
  else mkPromise true (S (settlements p)) (S (resolve_calls p)).

(** The object [cp.exec] returns.  [listeners] holds the event names
    subscribed with [on], in order; the only listener the class ever
    subscribes is the [resolve] of the completion promise. *)
Record ChildProcess : Type := mkChildProcess {
  has_on : bool;
  listeners : list string;
}.

Definition ChildProcess_on (event : string) (p : ChildProcess) : ChildProcess :=
  mkChildProcess (has_on p) (listeners p ++ [event]).

Record CommandHandle : Type := mkCommandHandle {
  waitCompletion : Promise;
  process : ChildProcess;
}.

(** The process emits [event]: every listener subscribed to it runs. *)
Definition emit (event : string) (h : CommandHandle) : CommandHandle :=
  mkCommandHandle
    (foldl (fun p l => if decide (l = event) then Promise_resolve p else p)
       (waitCompletion h) (listeners (process h)))
    (process h).

Definition emit_all (events : list string) (h : CommandHandle) : CommandHandle :=
  foldl (fun h e => emit e h) h events.

Definition is_terminal (event : string) : bool :=
  bool_decide (event = "exit") || bool_decide (event = "close")
  || bool_decide (event = "error").

(** ** Plain objects used as tables *)

(** The methods a plain object inherits from [Object.prototype] whose names
    are made of letters only. *)
Definition Object_prototype_methods : list string :=
  ["constructor"; "hasOwnProperty"; "isPrototypeOf"; "propertyIsEnumerable";
   "toLocaleString"; "toString"; "valueOf"].

(** [o[key] = v] on a plain object [o] for an object [v]: an own property,
    except for the key [__proto__], the inherited setter, which makes [v]
    the prototype of [o] and gives [o] no own property. *)
Definition object_set {A : Type} (o : gmap string A) (key : string) (v : A) : gmap string A :=
  if decide (key = "__proto__") then o else <[key := v]> o.

(** What [this.placeholdersMapping[name]] evaluates to when it is not
    [undefined]: one of the two arrow functions of the class, or a method
    inherited from [Object.prototype]. *)
Inductive mapper : Type :=
  | OwnMapper (p : PLACEHOLDERS)
  | InheritedMethod (name : string).

Definition placeholdersMapping_get (name : string) : option mapper :=
  if decide (name = PLACEHOLDERS_value PROJECT_ROOT) then Some (OwnMapper PROJECT_ROOT)
  else if decide (name = PLACEHOLDERS_value SCENARIO_ROOT) then Some (OwnMapper SCENARIO_ROOT)
  else if bool_decide (name ∈ Object_prototype_methods) then Some (InheritedMethod name)
  else None.

(** [mapper()], converted to a string as [String.prototype.replace] does
    with what its callback returns.  An inherited method is called without
    receiver and without argument: [Object()] is a fresh object,
    [toString] answers for [undefined], [isPrototypeOf(undefined)] is
    [false], the others need a receiver and throw, [toLocaleString] with
    a message of its own. *)
Definition call_mapper (this : Sandbox) (m : mapper) : result string :=
  match m with
  | OwnMapper PROJECT_ROOT => Ok (projectPath this)
  | OwnMapper SCENARIO_ROOT => Ok (scenarioPath this)
  | InheritedMethod name =>
      if decide (name = "constructor") then Ok "[object Object]"
      else if decide (name = "toString") then Ok "[object Undefined]"
      else if decide (name = "isPrototypeOf") then Ok "false"
      else if decide (name = "toLocaleString")
      then Throw (TypeError "Object.prototype.toLocaleString called on null or undefined")
      else Throw (TypeError "Cannot convert undefined or null to object")
  end.

(** ** Placeholder resolution *)

(** The placeholder pattern at the start of [s]: an opening angle bracket,
    one or more letters, a closing angle bracket.  Returns the name and
    what follows the match. *)
Definition match_placeholder (s : string) : option (string * string) :=
  match s with
  | String "<"%char r =>
      match Str.span_letters r with
      | (String c name, String ">"%char rest) => Some (String c name, rest)
      | _ => None
      end
  | _ => None
  end.

(** The callback given to [replace]. *)
Definition replacer (this : Sandbox) (placeholder placeholderName : string) : result string :=
  match placeholdersMapping_get placeholderName with
  | Some m => call_mapper this m
  | None => Ok placeholder
  end.

(** [str.replace(pattern, callback)] with the global flag: matches are
    looked for from left to right in the input, each search starting where
    the previous match ended.  [skip] counts the characters of the current
    match still to pass over. *)
Fixpoint replace_from (this : Sandbox) (skip : nat) (s : string) : result string :=
  match s with
  | EmptyString => Ok ""
  | String c r =>
      match skip with
      | S k => replace_from this k r
      | O =>
          match match_placeholder s with
          | Some (name, _) =>
              v ← replacer this ("<" +:+ name +:+ ">") name;
              rest ← replace_from this (S (String.length name)) r;
              Ok (v +:+ rest)
          | None =>
              rest ← replace_from this 0 r;
              Ok (String c rest)
          end
      end
  end.

Definition replacePlaceholder (this : Sandbox) (str : string) : result string :=
  replace_from this 0 str.

(** ** Reading a configuration file [as Config] *)

Definition as_string (v : json) : result string :=
  match v with
  | JStr s => Ok s
  | _ => Throw (TypeError "not a string")
  end.

Definition as_string_array (v : json) : result (list string) :=
  match v with
  | JArr xs => map_result as_string xs
  | _ => Throw (TypeError "not an array")
  end.

Definition as_string_map (v : json) : result (gmap string string) :=
  match v with
  | JObj props =>
      kvs ← map_result (fun kv => s ← as_string (snd kv); Ok (fst kv, s)) props;
      Ok (list_to_map kvs)
  | _ => Throw (TypeError "not an object")
  end.

Definition optional {A : Type} (f : json → result A) (v : option json) : result (option A) :=
  match v with
  | None => Ok None
  | Some j => a ← f j; Ok (Some a)
  end.

(** The keys of the [Config] interface in a parsed file.  A value that is
    not an object has none of them.  A key whose value does not have the
    type the interface declares is outside the input type of the class: the
    embedding rejects the file with a [TypeError]. *)
Definition as_Config (v : json) : result ConfigFile :=
  match v with
  | JObj props =>
      c ← optional as_string (obj_get props "command");
      f ← optional as_string_array (obj_get props "copyFiles");
      l ← optional as_string_map (obj_get props "linkModules");
      a ← optional as_string_array (obj_get props "alliageModules");
      Ok (mkConfigFile c f l a)
  | _ => Ok (mkConfigFile None None None None)
  end.

(** [{ ...base, ...file }]. *)
Definition merge_config (base : Config) (file : ConfigFile) : Config :=
  mkConfig
    (default (command base) (file_command file))
    (default (copyFiles base) (file_copyFiles file))
    (default (linkModules base) (file_linkModules file))
    (default (alliageModules base) (file_alliageModules file)).

(** The configuration the constructor builds. *)
Definition default_config (w : World) : Config :=
  mkConfig
    (match process_env w !! "NODE" with
     | Some v => if decide (v = "") then "node" else v
     | None => "node"
     end)
    [] ∅ [].

(** ** Entries of the module manifest *)

Record ModuleEntry : Type := mkModuleEntry {
  module : string;
  deps : option json;
}.

(** What [JSON.stringify] writes for an entry: a property whose value is
    [undefined] is left out. *)
Definition entry_to_json (e : ModuleEntry) : json :=
  JObj (("module", JStr (module e)) ::
        match deps e with
        | Some d => [("deps", d)]
        | None => []
        end).

(** The body of the callback of [generateModulesDefinition] once the
    package manifest is read: the key and the entry it registers, if any. *)
Definition module_entry_of (moduleName : string) (packageInfo : json)
    : result (option (string * ModuleEntry)) :=
  manifest ← get_prop packageInfo "alliageManifest";
  match manifest with
  | Some am =>
      if truthy manifest then
        ty ← get_prop am "type";
        if strict_eq_str ty "module" then
          name ← get_prop packageInfo "name";
          dependencies ← get_prop am "dependencies";
          key ← to_property_key name;
          Ok (Some (key, mkModuleEntry moduleName dependencies))
        else Ok None
      else Ok None
  | None => Ok None
  end.

(** [process.env[name]?.split(':') || []]. *)
Definition inherited_entries (w : World) (name : string) : list string :=
  match process_env w !! name with
  | Some v => Str.split ":"%char v
  | None => []
  end.

(** The removal of [p], recursive, once it happens. *)
Definition remove_path (p : string) (fs : gmap string fnode) : gmap string fnode :=
  filter (fun kv => ¬ (kv.1 = p ∨ String.prefix (p +:+ "/") kv.1 = true)) fs.

(** A step of the environment: a removal that was started completes. *)
Definition complete_removal (p : string) (w : World) : World :=
  mkWorld (remove_path p (files w)) (process_env w)
    (List.filter (fun q => negb (bool_decide (q = p))) (pending_removals w)) (spawned w).

(** ** The methods of [Sandbox] *)

Section Methods.
Context `{Host}.

(** [new Sandbox(params)]; [random] is what
    [Math.random().toString(36).slice(2)] gave. *)
Definition new_Sandbox (params : Params.t) (random : string) (w : World) : Sandbox :=
  mkSandbox
    (path_resolve [Params.scenarioPath params])
    (path_resolve [default DEFAULT_SANDBOX_PATH (Params.sandboxPath params); random])
    (path_resolve [default DEFAULT_PROJECT_PATH (Params.projectPath params)])
    (default CONFIG_FILE_NAME (Params.sandboxConfig params))
    false
    (default_config w)
    random.

Definition getPath (this : Sandbox) : result string := Ok (sandboxPath this).

Definition getProjectPath (this : Sandbox) : result string := Ok (projectPath this).

Definition getScenarioPath (this : Sandbox) : result string := Ok (scenarioPath this).

Definition throwIfNotInitialized : M unit :=
  st ← get_state;
  if isInitialized (this st) then ret tt
  else throw (Error NOT_INITIALIZED_MESSAGE).

Definition getConfig : M Config :=
  throwIfNotInitialized;;
  st ← get_state;
  ret (config (this st)).

(** *** fs-extra on the world *)

Definition readJson (path : string) : M json :=
  st ← get_state;
  match files (world st) !! path with
  | Some (JsonFile content) => ret content
  | _ => throw (IOError path)
  end.

Definition pathExists (path : string) : M bool :=
  st ← get_state;
  ret (bool_decide (is_Some (files (world st) !! path))).

(** The write itself is taken to succeed. *)
Definition writeJson (path : string) (content : json) : M unit :=
  update_world (fun w => set_files (<[path := JsonFile content]> (files w)) w).

(** An awaited call of a capability that changes the file system. *)
Definition fs_call (op : gmap string fnode → result (gmap string fnode)) : M unit :=
  st ← get_state;
  fs ← lift (op (files (world st)));
  update_world (set_files fs).

(** *** Configuration *)

Definition update_config (f : Config → Config) : M unit :=
  update_this (fun t => set_config (f (config t)) t).

(** The callback of the loop of [loadConfig] over the entries of
    [linkModules]. *)
Definition resolve_link_in_place (entry : string * string) : M unit :=
  st ← get_state;
  resolved ← lift (replacePlaceholder (this st) (snd entry));
  update_config (fun c => set_linkModules (<[fst entry := resolved]> (linkModules c)) c).

Definition loadConfig : M unit :=
  st ← get_state;
  let configPath := path_resolve [scenarioPath (this st); configFileName (this st)] in
  content ← readJson configPath;
  file ← lift (as_Config content);
  update_this (fun t => set_config (merge_config (config t) file) t);;
  st ← get_state;
  copied ← lift (map_result (replacePlaceholder (this st)) (copyFiles (config (this st))));
  update_config (set_copyFiles copied);;
  st ← get_state;
  modules ← lift (map_result (replacePlaceholder (this st)) (alliageModules (config (this st))));
  update_config (set_alliageModules modules);;
  st ← get_state;
  for_each resolve_link_in_place (map_to_list (linkModules (config (this st))));;
  st ← get_state;
  cmd ← lift (replacePlaceholder (this st) (command (config (this st))));
  update_config (set_command cmd).

(** *** Module manifest *)

Definition computeNodePath (this : Sandbox) (w : World) : list string :=
  [ path_resolve [sandboxPath this; LINKED_MODULES_PATH];
    path_resolve [sandboxPath this; NODE_MODULES_PATH] ]
  ++ inherited_entries w "NODE_PATH".

Definition loadModulesDefinition : M json :=
  st ← get_state;
  let defPath := path_resolve [sandboxPath (this st); ALLIAGE_MODULES_FILE_NAME] in
  present ← pathExists defPath;
  if (present : bool) then readJson defPath else ret (JObj []).

(** The path of the package manifest of [moduleName]. *)
Definition resolve_package_json (st : State) (moduleName : string) : result string :=
  let request := moduleName +:+ "/package.json" in
  if LOCAL_MODULE_PATTERN_test moduleName
  then Ok (path_resolve [request])
  else require_resolve (files (world st)) (computeNodePath (this st) (world st)) request.

(** One callback of the [map] over [alliageModules], on the table
    [loadedModules] as it stands when the read completes. *)
Definition load_module (st : State) (loadedModules : gmap string ModuleEntry)
    (moduleName : string) : result (gmap string ModuleEntry) :=
  packageJsonPath ← resolve_package_json st moduleName;
  packageInfo ← fst (readJson packageJsonPath st);
  registered ← module_entry_of moduleName packageInfo;
  Ok (match registered with
      | Some (name, entry) => object_set loadedModules name entry
      | None => loadedModules
      end).

(** [{ ...modulesDef, ...loadedModules }] as [writeJson] serializes it. *)
Definition merged_manifest (modulesDef : json) (loadedModules : gmap string ModuleEntry)
    : gmap string json :=
  (entry_to_json <$> loadedModules) ∪ spread modulesDef.

(** The reads of the package manifests are awaited first; the read of
    the existing manifest, started before them, is awaited with their
    result.  So when both fail the method throws the failure of a package
    manifest, and the write is reached only when every read has
    succeeded. *)
Definition generateModulesDefinition : M unit :=
  st ← get_state;
  loadedModules ← lift (fold_result (load_module st) ∅
                          (completion_order (alliageModules (config (this st)))));
  modulesDef ← loadModulesDefinition;
  writeJson (path_resolve [sandboxPath (this st); ALLIAGE_MODULES_FILE_NAME])
    (JObj (map_to_list (merged_manifest modulesDef loadedModules))).

(** *** Life cycle *)

(** [fs.remove] is called and its promise dropped: the removal is
    started, nothing waits for it. *)
Definition removeSandboxDirectory : M unit :=
  st ← get_state;
  update_world (fun w =>
    mkWorld (files w) (process_env w)
      (sandboxPath (this st) :: pending_removals w) (spawned w)).

Definition clear : M unit :=
  removeSandboxDirectory;;
  update_this (set_isInitialized false).

(** The calls given to [Promise.all] in [init], in the order of the
    array; [init] below runs them one after the other and stops at the
    first that fails. *)
Definition provisioning (this : Sandbox)
    : list (gmap string fnode → result (gmap string fnode)) :=
  ((fun filePath =>
      fs_copy filePath (path_resolve [sandboxPath this; path_basename filePath]))
     <$> copyFiles (config this))
  ++ ((fun entry =>
         fs_ensureSymlink (snd entry)
           (path_resolve [sandboxPath this; LINKED_MODULES_PATH; fst entry]))
        <$> map_to_list (linkModules (config this)))
  ++ [ fs_ensureSymlink
         (path_resolve [projectPath this; NODE_MODULES_PATH])
         (path_resolve [sandboxPath this; NODE_MODULES_PATH]) ].

(** The steps of [init], each awaited before the next starts.  The
    removal that [clear] started is a step of the environment: in a run of
    [init] it takes nothing away; [init_beside_removal], further down, has
    it going on between the steps. *)
Definition init : M unit :=
  clear;;
  st ← get_state;
  fs_call (fs_mkdirp (sandboxPath (this st)));;
  loadConfig;;
  st ← get_state;
  for_each fs_call (provisioning (this st));;
  generateModulesDefinition;;
  update_this (set_isInitialized true).

(** *** Commands *)

Definition cp_exec (commandLine : string) (env : gmap string string) (cwd : string)
    : M ChildProcess :=
  update_world (fun w =>
    mkWorld (files w) (process_env w) (pending_removals w)
      (mkSpawn commandLine env cwd :: spawned w));;
  ret (mkChildProcess exec_has_on []).

(** The executor of the completion promise. *)
Definition completion (childProcess : ChildProcess) : CommandHandle :=
  if has_on childProcess
  then mkCommandHandle pending_promise
         (ChildProcess_on "error"
            (ChildProcess_on "close" (ChildProcess_on "exit" childProcess)))
  else mkCommandHandle (Promise_resolve pending_promise) childProcess.

Definition nodePath_of (this : Sandbox) (w : World) : string :=
  Str.join ":" (computeNodePath this w).

Definition systemPath_of (this : Sandbox) (w : World) : string :=
  Str.join ":" (inherited_entries w "PATH" ++ [path_resolve [sandboxPath this; BINS_PATH]]).

(** [{ ...process.env, ...env, NODE_PATH: nodePath, PATH: systemPath }]. *)
Definition command_env (this : Sandbox) (w : World) (env : gmap string string)
    : gmap string string :=
  <["PATH" := systemPath_of this w]>
    (<["NODE_PATH" := nodePath_of this w]> (env ∪ process_env w)).

Definition runCommand (cmd : COMMAND) (args : list string) (options : CommandOptions)
    : M CommandHandle :=
  let env := default ∅ (options_env options) in
  throwIfNotInitialized;;
  st ← get_state;
  let script :=
    path_resolve [sandboxPath (this st); BINS_PATH +:+ "/" +:+ ALLIAGE_SCRIPT_NAME] in
  childProcess ←
    cp_exec
      (command (config (this st)) +:+ " " +:+ script +:+ " "
       +:+ COMMAND_value cmd +:+ " " +:+ Str.join " " args)
      (command_env (this st) (world st) env)
      (sandboxPath (this st));
  ret (completion childProcess).

Definition install (args : list string) (options : CommandOptions) : M CommandHandle :=
  runCommand INSTALL args options.

Definition run (args : list string) (options : CommandOptions) : M CommandHandle :=
  runCommand RUN args options.

Definition build (args : list string) (options : CommandOptions) : M CommandHandle :=
  runCommand BUILD args options.

End Methods.

(** ** The public interface as a type of calls *)

Inductive call : Type :=
  | CallInit
  | CallClear
  | CallGetConfig
  | CallCommand (cmd : COMMAND) (args : list string) (options : CommandOptions).

(** The method of the class behind each value of [COMMAND]. *)
Definition method_of `{Host} (cmd : COMMAND)
    : list string → CommandOptions → M CommandHandle :=
  match cmd with
  | INSTALL => install
  | BUILD => build
  | RUN => run
  end.

(** The state a call leaves, whether it returns or throws. *)
Definition after_call `{Host} (c : call) (st : State) : State :=
  match c with
  | CallInit => snd (init st)
  | CallClear => snd (clear st)
  | CallGetConfig => snd (getConfig st)
  | CallCommand cmd args options => snd (method_of cmd args options st)
  end.

Definition after_calls `{Host} (cs : list call) (st : State) : State :=
  foldl (fun st c => after_call c st) st cs.

(** An entry of [linkModules] with its value resolved. *)
Definition resolve_link (this : Sandbox) (kv : string * string) : result (string * string) :=
  v ← replacePlaceholder this (snd kv); Ok (fst kv, v).

(** The configuration with every path-bearing field resolved: [command],
    the entries of [copyFiles] and [alliageModules], the values of
    [linkModules]. *)
Definition resolve_config (this : Sandbox) (c : Config) : result Config :=
  copied ← map_result (replacePlaceholder this) (copyFiles c);
  modules ← map_result (replacePlaceholder this) (alliageModules c);
  links ← map_result (resolve_link this) (map_to_list (linkModules c));
  cmd ← replacePlaceholder this (command c);
  Ok (mkConfig cmd copied (list_to_map links) modules).

Definition is_absolute (p : string) : bool :=
  match p with
  | String "/"%char _ => true
  | _ => false
  end.

(** ** A host to run the class on

    POSIX paths under a fixed working directory, and a file system whose
    provisioning calls succeed and change nothing, as the mocks of the test
    suite do. *)

Module Posix.

Fixpoint normalize (stack : list string) (segments : list string) : list string :=
  match segments with
  | [] => rev stack
  | seg :: rest =>
      if decide (seg = "") then normalize stack rest
      else if decide (seg = ".") then normalize stack rest
      else if decide (seg = "..") then normalize (tail stack) rest
      else normalize (seg :: stack) rest
  end.

(** [path.resolve(...args)] from the working directory [cwd]. *)
Definition resolve (cwd : string) (args : list string) : string :=
  let joined :=
    foldl (fun acc p =>
             if decide (p = "") then acc
             else if is_absolute p then p
             else acc +:+ "/" +:+ p) cwd args in
  "/" +:+ Str.join "/" (normalize [] (Str.split "/"%char joined)).

(** [path.basename(p)]: the last portion of [p] as it is written,
    trailing slashes apart; nothing is normalized. *)
Definition basename (p : string) : string :=
  default ""
    (last (List.filter (fun seg => negb (bool_decide (seg = ""))) (Str.split "/"%char p))).

(** The directories that module resolution looks at from the directory
    [start], nearest first: [node_modules] in [start] and in each of its
    ancestors, a directory itself named [node_modules] being passed
    over. *)
Definition node_modules_paths (cwd start : string) : list string :=
  let parts := normalize [] (Str.split "/"%char (resolve cwd [start])) in
  omap (fun i =>
          if bool_decide (last (take i parts) = Some "node_modules") then None
          else Some ("/" +:+ Str.join "/" (take i parts ++ ["node_modules"])))
       (rev (seq 0 (S (length parts)))).

End Posix.

Definition test_cwd : string := "/work".

(** [require.resolve(request, { paths })] for a request that names a file
    of a package: each entry of [paths] is a starting point, from which
    the hierarchy of [node_modules] directories is searched; the first
    file found is the answer.  The global folders are left out. *)
Definition test_require_resolve (fs : gmap string fnode) (paths : list string)
    (request : string) : result string :=
  match List.filter (fun p => bool_decide (is_Some (fs !! p)))
          ((fun dir => dir +:+ "/" +:+ request)
             <$> concat (Posix.node_modules_paths test_cwd <$> paths)) with
  | p :: _ => Ok p
  | [] => Throw (IOError request)
  end.

Definition test_host (on : bool) : Host :=
  mkHost (Posix.resolve test_cwd) Posix.basename test_require_resolve
    (fun _ fs => Ok fs) (fun _ _ fs => Ok fs) (fun _ _ fs => Ok fs)
    (fun l => l) on.

Definition test_params : Params.t :=
  Params.mk "path/to/scenario" (Some "path/to/project") None None.

Definition test_config_path : string :=
  "/work/path/to/scenario/alliage-sandbox-config.json".

Definition test_env : gmap string string :=
  {[ "PATH" := "test-path1:test-path2";
     "NODE_PATH" := "test-node-path1:test-node-path2";
     "HOME" := "/home/user" ]}.

(** The scenario of the test suite: two declared modules, the second one
    of type [compound]. *)
Definition test_config_file : json :=
  JObj [ ("copyFiles", JArr [JStr "<scenarioRoot>/src"; JStr "<projectRoot>/config";
                             JStr "<unknownPlaceholder>/test"]);
         ("linkModules",
           JObj [("alliage-fake-module",
                  JStr "<projectRoot>/packages/alliage-fake-module/dist")]);
         ("alliageModules",
           JArr [JStr "alliage-fake-module"; JStr "../alliage-other-fake-module"]) ].

Definition test_fake_module : json :=
  JObj [ ("name", JStr "alliage-fake-module");
         ("alliageManifest",
           JObj [("type", JStr "module"); ("dependencies", JArr [JStr "alliage-dummy-module"])]) ].

Definition test_other_module : json :=
  JObj [ ("name", JStr "alliage-other-fake-module");
         ("alliageManifest",
           JObj [("type", JStr "compound");
                 ("dependencies", JArr [JStr "alliage-dummy-module"])]) ].

Definition test_existing_manifest : json :=
  JObj [ ("alliage-dummy-module",
           JObj [("module", JStr "alliage-dummy-module"); ("deps", JArr [])]) ].

Definition test_sandbox_path : string := "/work/.alliage-sandboxes/k3x9".

Definition test_manifest_path : string :=
  "/work/.alliage-sandboxes/k3x9/alliage-modules.json".

Definition test_files : gmap string fnode :=
  {[ test_config_path := JsonFile test_config_file;
     "/work/.alliage-sandboxes/k3x9/node_modules/alliage-fake-module/package.json"
       := JsonFile test_fake_module;
     "/alliage-other-fake-module/package.json" := JsonFile test_other_module;
     test_sandbox_path := OtherNode;
     test_manifest_path := JsonFile test_existing_manifest ]}.

Definition test_world : World := mkWorld test_files test_env [] [].

Definition test_sandbox : Sandbox :=
  @new_Sandbox (test_host true) test_params "k3x9" test_world.

Definition test_state : State := mkState test_sandbox test_world.

Definition test_initialized (on : bool) : State :=
  snd (@init (test_host on) test_state).

(** A module whose package manifest declares the name [__proto__]. *)
Definition proto_module : json :=
  JObj [ ("name", JStr "__proto__");
         ("alliageManifest", JObj [("type", JStr "module"); ("dependencies", JArr [])]) ].

Definition proto_config_file : json :=
  JObj [ ("alliageModules", JArr [JStr "<projectRoot>/local-module"]) ].

Definition proto_world : World :=
  mkWorld
    {[ test_config_path := JsonFile proto_config_file;
       "/work/path/to/project/local-module/package.json" := JsonFile proto_module ]}
    test_env [] [].

Definition proto_state : State :=
  mkState (@new_Sandbox (test_host true) test_params "k3x9" proto_world) proto_world.

(** A module of type [module] whose manifest has no [dependencies]. *)
Definition module_without_dependencies : json :=
  JObj [ ("name", JStr "alliage-fake-module");
         ("alliageManifest", JObj [("type", JStr "module")]) ].

(** A configuration file that sets [command], and the world of the test
    suite with that file; then the same world, initialized, once the file is
    edited to the empty object. *)
Definition command_config_file : json :=
  JObj [ ("command", JStr "ts-node");
         ("copyFiles", JArr [JStr "<scenarioRoot>/src"]) ].



(** A world with the scenario only: the sandbox directory does not exist
    yet. *)
Definition fresh_state : State :=
  let w := mkWorld {[ test_config_path := JsonFile command_config_file ]} test_env [] [] in
  mkState (@new_Sandbox (test_host true) test_params "k3x9" w) w.

(** An initialized sandbox in a parent process whose environment sets
    neither [PATH] nor [NODE_PATH]. *)
Definition bare_environment_state : State :=
  mkState (set_isInitialized true test_sandbox) (mkWorld ∅ ∅ [] []).

(** ** Predicates used in the statements *)

(** In state [st] the identifier [moduleName] resolves to a package
    manifest that registers [entry] under [name]. *)
Definition registers `{Host} (st : State) (moduleName name : string)
    (entry : ModuleEntry) : Prop :=
  ∃ path packageInfo,
    resolve_package_json st moduleName = Ok path
    ∧ files (world st) !! path = Some (JsonFile packageInfo)
    ∧ module_entry_of moduleName packageInfo = Ok (Some (name, entry)).

(** The entries of a search-path variable, as the specification words
    them: the pieces of its value between colons, none when the variable
    is not set. *)
Definition variable_entries (value : option string) : list string :=
  match value with
  | Some v => Str.split ":"%char v
  | None => []
  end.

(** The manifest that [loadModulesDefinition] finds at [defPath]. *)
Definition existing_manifest (fs : gmap string fnode) (defPath : string) : result json :=
  match fs !! defPath with
  | Some (JsonFile content) => Ok content
  | Some OtherNode => Throw (IOError defPath)
  | None => Ok (JObj [])
  end.

(** [packageInfo.alliageManifest.dependencies], [None] when there is no
    such field. *)
Definition manifest_dependencies (packageInfo : json) : option json :=
  match get_prop packageInfo "alliageManifest" with
  | Ok (Some am) =>
      match get_prop am "dependencies" with
      | Ok d => d
      | Throw _ => None
      end
  | _ => None
  end.

(** The [deps] of an entry as the specification words them: the
    dependencies of the manifest, the empty sequence when it has none. *)
Definition deps_with_default (packageInfo : json) : option json :=
  Some (default (JArr []) (manifest_dependencies packageInfo)).

Fixpoint all_letters (s : string) : bool :=
  match s with
  | EmptyString => true
  | String c r => Str.is_letter c && all_letters r
  end.

(** The three paths of the object are the same in both states. *)
Definition same_paths (st st' : State) : Prop :=
  sandboxPath (this st') = sandboxPath (this st)
  ∧ projectPath (this st') = projectPath (this st)
  ∧ scenarioPath (this st') = scenarioPath (this st).

(** Every run of [m] relates the state it starts from to the state it
    leaves. *)
Definition preserves {A : Type} (R : State → State → Prop) (m : M A) : Prop :=
  ∀ st, R st (snd (m st)).

(** The flag is the same in both states. *)
Definition same_flag (st st' : State) : Prop :=
  isInitialized (this st') = isInitialized (this st).

(** Started with the flag down, [m] leaves it up exactly when it returns. *)
Definition flag_tracks_result {A : Type} (m : M A) : Prop :=
  ∀ st, isInitialized (this st) = false →
        isInitialized (this (snd (m st))) = is_ok (fst (m st)).

(** A promise is pending and never settled, or fulfilled and settled
    once. *)
Definition well_formed_promise (p : Promise) : Prop :=
  settlements p = (if fulfilled p then 1 else 0).

(** The spawn a command makes in a state: the command line, the
    environment, the working directory. *)
Definition spawn_of `{Host} (cmd : COMMAND) (args : list string) (options : CommandOptions)
    (st : State) : Spawn :=
  mkSpawn
    (command (config (this st)) +:+ " "
     +:+ path_resolve [sandboxPath (this st); BINS_PATH +:+ "/" +:+ ALLIAGE_SCRIPT_NAME]
     +:+ " " +:+ COMMAND_value cmd +:+ " " +:+ Str.join " " args)
    (command_env (this st) (world st) (default ∅ (options_env options)))
    (sandboxPath (this st)).

Definition record_spawn (s : Spawn) (st : State) : State :=
  mkState (this st)
    (mkWorld (files (world st)) (process_env (world st)) (pending_removals (world st))
       (s :: spawned (world st))).

(** ** Further notions used in the statements *)

(** The tokens whose lookup finds an inherited method that throws when
    called without receiver. *)
Definition throwing_tokens : list string :=
  ["<hasOwnProperty>"; "<propertyIsEnumerable>"; "<toLocaleString>"; "<valueOf>"].

Definition no_throwing_token (s : string) : bool :=
  forallb (fun t => negb (Str.has_infix t s)) throwing_tokens.

(** A call of one of the three command methods. *)
Definition command_call (c : COMMAND * list string * CommandOptions) : call :=
  CallCommand c.1.1 c.1.2 c.2.

(** Between the two states the environment, the spawned commands and the
    removals in flight are the same. *)
Definition same_outside (st st' : State) : Prop :=
  process_env (world st') = process_env (world st)
  ∧ spawned (world st') = spawned (world st)
  ∧ pending_removals (world st') = pending_removals (world st).

(** The object is the same in both states. *)
Definition same_object (st st' : State) : Prop := this st' = this st.

(** Whether a call is one of the three command methods. *)
Definition is_command (c : call) : bool :=
  match c with
  | CallCommand _ _ _ => true
  | _ => false
  end.

(** Whether a call is [init] or [clear], the two methods that reach
    [removeSandboxDirectory]. *)
Definition starts_removal (c : call) : bool :=
  match c with
  | CallInit | CallClear => true
  | _ => false
  end.

(** The environment is the same in both states. *)
Definition same_env (st st' : State) : Prop :=
  process_env (world st') = process_env (world st).

(** The spawned commands are the same in both states. *)
Definition same_spawned (st st' : State) : Prop :=
  spawned (world st') = spawned (world st).

(** The removals in flight are the same in both states. *)
Definition same_pending (st st' : State) : Prop :=
  pending_removals (world st') = pending_removals (world st).

(** The files are the same in both states. *)
Definition same_files (st st' : State) : Prop :=
  files (world st') = files (world st).

(** The configuration is the same in both states. *)
Definition same_config (st st' : State) : Prop :=
  config (this st') = config (this st).

(** A value that has a string form: no object with a property of its own
    named [toString], at any depth of arrays. *)
Fixpoint has_string_form (v : json) : bool :=
  match v with
  | JObj props => negb (bool_decide (is_Some (obj_get props "toString")))
  | JArr xs => forallb has_string_form xs
  | _ => true
  end.

(** A package manifest on which the callback of
    [generateModulesDefinition] runs to its end: it is not [null] and,
    when its [alliageManifest] has the type [module], its [name] is absent
    or has a string form. *)
Definition usable_manifest (packageInfo : json) : Prop :=
  packageInfo ≠ JNull
  ∧ ∀ props manifest name,
      packageInfo = JObj props →
      obj_get props "alliageManifest" = Some (JObj manifest) →
      obj_get manifest "type" = Some (JStr "module") →
      obj_get props "name" = Some name →
      has_string_form name = true.

(** In state [st] the package manifest of [moduleName] is found, parses
    and is usable. *)
Definition readable_module `{Host} (st : State) (moduleName : string) : Prop :=
  ∃ path packageInfo,
    resolve_package_json st moduleName = Ok path
    ∧ files (world st) !! path = Some (JsonFile packageInfo)
    ∧ usable_manifest packageInfo.

(** A module of type [module] whose name is an object that hides the
    inherited [toString]. *)
Definition unnameable_module : json :=
  JObj [ ("name", JObj [("toString", JNum "5")]);
         ("alliageManifest", JObj [("type", JStr "module")]) ].

Definition unnameable_state : State :=
  mkState
    (set_config (mkConfig "node" [] ∅ ["/unnameable"]) test_sandbox)
    (mkWorld {[ "/unnameable/package.json" := JsonFile unnameable_module ]} test_env [] []).

(** Two declared modules whose package manifests give the same name. *)
Definition first_twin : json :=
  JObj [ ("name", JStr "twin");
         ("alliageManifest", JObj [("type", JStr "module"); ("dependencies", JArr [])]) ].

Definition second_twin : json :=
  JObj [ ("name", JStr "twin");
         ("alliageManifest",
           JObj [("type", JStr "module"); ("dependencies", JArr [JStr "first"])]) ].

Definition twins_state : State :=
  mkState
    (set_config (mkConfig "node" [] ∅ ["/first"; "/second"]) test_sandbox)
    (mkWorld {[ "/first/package.json" := JsonFile first_twin;
                "/second/package.json" := JsonFile second_twin ]}
       test_env [] []).

(** The host of the tests with the reads completing in reverse order. *)
Definition reversing_host : Host :=
  mkHost (Posix.resolve test_cwd) Posix.basename test_require_resolve
    (fun _ fs => Ok fs) (fun _ _ fs => Ok fs) (fun _ _ fs => Ok fs)
    (fun l => rev l) true.

(** One step of a removal that is going on: of the paths in [gone], those
    that are the directory [root] or lie under it disappear. *)
Definition removal_progress (root : string) (gone : list string)
    (fs : gmap string fnode) : gmap string fnode :=
  filter (fun kv => ¬ (kv.1 ∈ gone
                       ∧ (kv.1 = root ∨ String.prefix (root +:+ "/") kv.1 = true))) fs.

(** What the removal of the sandbox directory does to the files while a
    method of the object waits. *)
Definition interference (gone : list string) : M unit :=
  st ← get_state;
  update_world (fun w =>
    set_files (removal_progress (sandboxPath (this st)) gone (files w)) w).

(** [init] with the removal that [clear] started going on beside it:
    [fs.remove] was called and not awaited, so it removes paths of the
    sandbox directory while [init] waits for [mkdirp], for the read of the
    configuration, for the copies and links, and for the manifest.  The
    four lists give the paths that go before each of these steps. *)
Definition init_beside_removal `{Host} (g1 g2 g3 g4 : list string) : M unit :=
  clear;;
  interference g1;;
  st ← get_state;
  fs_call (fs_mkdirp (sandboxPath (this st)));;
  interference g2;;
  loadConfig;;
  interference g3;;
  st ← get_state;
  for_each fs_call (provisioning (this st));;
  interference g4;;
  generateModulesDefinition;;
  update_this (set_isInitialized true).

(** A scenario without configuration file, with the sandbox directory of
    an earlier run still there. *)
Definition unconfigured_state : State :=
  mkState test_sandbox
    (mkWorld {[ test_sandbox_path := OtherNode; test_manifest_path := JsonFile (JObj []) ]}
       test_env [] []).

(** * Properties *)

(** ** The state monad *)

Lemma bind_ok {A B : Type} (m : M A) (k : A → M B) (st st' : State) (a : A) :
  m st = (Ok a, st') → (x ← m; k x) st = k a st'.
Proof. intros Hm. unfold mbind, M_bind, bind. by rewrite Hm. Qed.

Lemma bind_throw {A B : Type} (m : M A) (k : A → M B) (st st' : State) (e : js_error) :
  m st = (Throw e, st') → (x ← m; k x) st = (Throw e, st').
Proof. intros Hm. unfold mbind, M_bind, bind. by rewrite Hm. Qed.

Lemma bind_get_state {B : Type} (k : State → M B) (st : State) :
  (x ← get_state; k x) st = k st st.
Proof. reflexivity. Qed.

Lemma bind_lift {A B : Type} (r : result A) (k : A → M B) (st : State) :
  (x ← lift r; k x) st
  = match r with
    | Ok a => k a st
    | Throw e => (Throw e, st)
    end.
Proof. by destruct r. Qed.

Lemma bind_update_this {B : Type} (f : Sandbox → Sandbox) (k : unit → M B) (st : State) :
  (x ← update_this f; k x) st = k tt (mkState (f (this st)) (world st)).
Proof. reflexivity. Qed.

(** ** Commands *)

Section Commands.
Context `{Host}.

Lemma throwIfNotInitialized_false (st : State) :
  isInitialized (this st) = false →
  throwIfNotInitialized st = (Throw (Error NOT_INITIALIZED_MESSAGE), st).
Proof.
  intros Hflag. unfold throwIfNotInitialized, mbind, M_bind, bind, get_state.
  by rewrite Hflag.
Qed.

Lemma throwIfNotInitialized_true (st : State) :
  isInitialized (this st) = true → throwIfNotInitialized st = (Ok tt, st).
Proof.
  intros Hflag. unfold throwIfNotInitialized, mbind, M_bind, bind, get_state.
  by rewrite Hflag.
Qed.

Lemma runCommand_not_initialized cmd args options (st : State) :
  isInitialized (this st) = false →
  runCommand cmd args options st = (Throw (Error NOT_INITIALIZED_MESSAGE), st).
Proof.
  intros Hflag. unfold runCommand.
  by rewrite (bind_throw _ _ _ _ _ (throwIfNotInitialized_false st Hflag)).
Qed.

Lemma runCommand_initialized cmd args options (st : State) :
  isInitialized (this st) = true →
  runCommand cmd args options st
  = (Ok (completion (mkChildProcess exec_has_on [])),
     record_spawn (spawn_of cmd args options st) st).
Proof.
  intros Hflag. unfold runCommand.
  rewrite (bind_ok _ _ _ _ _ (throwIfNotInitialized_true st Hflag)).
  by destruct st.
Qed.

Lemma method_of_runCommand cmd : method_of cmd = runCommand cmd.
Proof. by destruct cmd. Qed.

End Commands.

(** ** Strings *)

Lemma app_cons (c : ascii) (s t : string) : String c s +:+ t = String c (s +:+ t).
Proof. reflexivity. Qed.

Lemma app_empty_l (t : string) : "" +:+ t = t.
Proof. reflexivity. Qed.

Lemma app_empty_r (s : string) : s +:+ "" = s.
Proof. induction s as [|c s IH]; [done|]. by rewrite app_cons, IH. Qed.

Lemma app_assoc_string (s t u : string) : (s +:+ t) +:+ u = s +:+ (t +:+ u).
Proof. induction s as [|c s IH]; [done|]. by rewrite !app_cons, IH. Qed.

Lemma split_not_nil (sep : ascii) (s : string) : Str.split sep s ≠ [].
Proof.
  destruct s as [|c s]; simpl; [done|].
  case_decide; [done|]. by destruct (Str.split sep s).
Qed.

Lemma join_cons (sep x : string) (xs : list string) :
  xs ≠ [] → Str.join sep (x :: xs) = x +:+ sep +:+ Str.join sep xs.
Proof. by destruct xs. Qed.

Lemma join_snoc (sep y : string) (xs : list string) :
  xs ≠ [] → Str.join sep (xs ++ [y]) = Str.join sep xs +:+ sep +:+ y.
Proof.
  induction xs as [|x xs IH]; [done|]. intros _.
  destruct xs as [|x' xs]; [done|].
  change ((x :: x' :: xs) ++ [y]) with (x :: ((x' :: xs) ++ [y])).
  rewrite join_cons by done. rewrite IH by done.
  rewrite (join_cons sep x (x' :: xs)) by done.
  by rewrite !app_assoc_string.
Qed.

(** Splitting on a separator and joining on it gives the string back. *)
Lemma join_split (sep : ascii) (s : string) :
  Str.join (String sep "") (Str.split sep s) = s.
Proof.
  induction s as [|c s IH]; [done|]. simpl Str.split.
  case_decide as Hc.
  - subst c. rewrite join_cons by apply split_not_nil. by rewrite IH.
  - pose proof (split_not_nil sep s) as Hne.
    destruct (Str.split sep s) as [|h t]; [done|].
    destruct t as [|h' t].
    + simpl in *. by rewrite IH.
    + rewrite join_cons by done. rewrite join_cons in IH by done.
      by rewrite app_cons, IH.
Qed.

(** ** The initialization precondition *)



(** ** The environment of a spawned command *)

Section Environment.
Context `{Host}.

Lemma command_env_PATH this w env :
  command_env this w env !! "PATH" = Some (systemPath_of this w).
Proof. unfold command_env. by rewrite lookup_insert_eq. Qed.

Lemma command_env_NODE_PATH this w env :
  command_env this w env !! "NODE_PATH" = Some (nodePath_of this w).
Proof.
  unfold command_env. rewrite lookup_insert_ne by done. by rewrite lookup_insert_eq.
Qed.

Lemma command_env_other this w env (k : string) :
  k ≠ "PATH" → k ≠ "NODE_PATH" →
  command_env this w env !! k = (env ∪ process_env w) !! k.
Proof.
  intros HP HN. unfold command_env. by rewrite !lookup_insert_ne.
Qed.

(** With [PATH] set in the parent, the composed value is the parent's
    followed by the binary directory; without it, the directory alone. *)
Lemma systemPath_of_set this w (p : string) :
  process_env w !! "PATH" = Some p →
  systemPath_of this w = p +:+ ":" +:+ path_resolve [sandboxPath this; BINS_PATH].
Proof.
  intros Hp. unfold systemPath_of, inherited_entries. rewrite Hp.
  rewrite join_snoc by apply split_not_nil. by rewrite (join_split ":"%char).
Qed.

Lemma systemPath_of_unset this w :
  process_env w !! "PATH" = None →
  systemPath_of this w = path_resolve [sandboxPath this; BINS_PATH].
Proof. intros Hp. unfold systemPath_of, inherited_entries. by rewrite Hp. Qed.

(** With [NODE_PATH] set in the parent, the composed value is the two
    directories of the sandbox followed by the parent's value; without it,
    the two directories. *)
Lemma nodePath_of_set this w (v : string) :
  process_env w !! "NODE_PATH" = Some v →
  nodePath_of this w
  = path_resolve [sandboxPath this; LINKED_MODULES_PATH] +:+ ":"
    +:+ path_resolve [sandboxPath this; NODE_MODULES_PATH] +:+ ":" +:+ v.
Proof.
  intros Hv. unfold nodePath_of, computeNodePath, inherited_entries. rewrite Hv.
  pose proof (split_not_nil ":"%char v) as Hne.
  change ([?a; ?b] ++ ?l) with (a :: b :: l).
  rewrite join_cons by done. rewrite join_cons by done.
  by rewrite (join_split ":"%char).
Qed.

Lemma nodePath_of_unset this w :
  process_env w !! "NODE_PATH" = None →
  nodePath_of this w
  = path_resolve [sandboxPath this; LINKED_MODULES_PATH] +:+ ":"
    +:+ path_resolve [sandboxPath this; NODE_MODULES_PATH].
Proof. intros Hv. unfold nodePath_of, computeNodePath, inherited_entries. by rewrite Hv. Qed.

End Environment.

(** C5. Every command that [install], [build] or [run] spawns gets, as
    [NODE_PATH], the colon-join of the [linked_modules] directory of the
    sandbox, its [node_modules] directory and the entries of the parent's
    [NODE_PATH], and, as [PATH], the colon-join of the entries of the
    parent's [PATH] followed by the [node_modules/.bin] directory of the
    sandbox.  The entries of a variable are the pieces of its value between
    colons, none when the variable is not set.  Written out: a parent
    [NODE_PATH] of [v] gives the two directories and [v], joined by
    colons, and no parent [NODE_PATH] gives the two directories joined by
    a colon; a parent [PATH] of [p] gives [p], a colon and the binary
    directory, and no parent [PATH] gives the binary directory alone. *)
Theorem command_search_paths `{Host} (cmd : COMMAND) (args : list string)
    (options : CommandOptions) (st : State) :
  isInitialized (this st) = true →
  let linked := path_resolve [sandboxPath (this st); "linked_modules"] in
  let modules := path_resolve [sandboxPath (this st); "node_modules"] in
  let bins := path_resolve [sandboxPath (this st); "node_modules/.bin"] in
  let parent := process_env (world st) in
  ∃ handle s,
    method_of cmd args options st = (Ok handle, record_spawn s st)
    ∧ spawn_env s !! "NODE_PATH"
      = Some (Str.join ":" ([linked; modules] ++ variable_entries (parent !! "NODE_PATH")))
    ∧ spawn_env s !! "PATH"
      = Some (Str.join ":" (variable_entries (parent !! "PATH") ++ [bins]))
    ∧ (∀ v, parent !! "NODE_PATH" = Some v →
         spawn_env s !! "NODE_PATH" = Some (linked +:+ ":" +:+ modules +:+ ":" +:+ v))
    ∧ (parent !! "NODE_PATH" = None →
         spawn_env s !! "NODE_PATH" = Some (linked +:+ ":" +:+ modules))
    ∧ (∀ p, parent !! "PATH" = Some p →
         spawn_env s !! "PATH" = Some (p +:+ ":" +:+ bins))
    ∧ (parent !! "PATH" = None → spawn_env s !! "PATH" = Some bins).
Proof.
  intros Hflag linked modules bins parent. eexists _, (spawn_of cmd args options st).
  split; [|split; [|split; [|split; [|split; [|split]]]]].
  - rewrite method_of_runCommand. by apply runCommand_initialized.
  - apply command_env_NODE_PATH.
  - apply command_env_PATH.
  - intros v Hv. simpl. rewrite command_env_NODE_PATH. f_equal.
    by apply nodePath_of_set.
  - intros Hv. simpl. rewrite command_env_NODE_PATH. f_equal.
    by apply nodePath_of_unset.
  - intros p Hp. simpl. rewrite command_env_PATH. f_equal.
    by apply systemPath_of_set.
  - intros Hp. simpl. rewrite command_env_PATH. f_equal.
    by apply systemPath_of_unset.
Qed.

Lemma command_search_paths_witness :
  (isInitialized (this (test_initialized true)) = true
   ∧ ∃ handle s,
       @method_of (test_host true) RUN ["a"; "b"] (mkCommandOptions None)
         (test_initialized true)
       = (Ok handle, record_spawn s (test_initialized true))
       ∧ spawn_env s !! "NODE_PATH"
         = Some ("/work/.alliage-sandboxes/k3x9/linked_modules"
                 +:+ ":/work/.alliage-sandboxes/k3x9/node_modules"
                 +:+ ":test-node-path1:test-node-path2")
       ∧ spawn_env s !! "PATH"
         = Some "test-path1:test-path2:/work/.alliage-sandboxes/k3x9/node_modules/.bin")
  ∧ (isInitialized (this bare_environment_state) = true
     ∧ ∃ handle s,
         @method_of (test_host true) RUN ["a"; "b"] (mkCommandOptions None)
           bare_environment_state
         = (Ok handle, record_spawn s bare_environment_state)
         ∧ spawn_env s !! "NODE_PATH"
           = Some ("/work/.alliage-sandboxes/k3x9/linked_modules"
                   +:+ ":/work/.alliage-sandboxes/k3x9/node_modules")
         ∧ spawn_env s !! "PATH"
           = Some "/work/.alliage-sandboxes/k3x9/node_modules/.bin").
Proof.
  split.
  - split; [vm_compute; reflexivity|].
    destruct (@command_search_paths (test_host true) RUN ["a"; "b"] (mkCommandOptions None)
                (test_initialized true))
      as (handle & s & Hrun & _ & _ & Hnode & _ & Hpath & _).
    { vm_compute; reflexivity. }
    exists handle, s. split; [exact Hrun|]. split.
    + rewrite (Hnode "test-node-path1:test-node-path2") by (vm_compute; reflexivity).
      vm_compute. reflexivity.
    + rewrite (Hpath "test-path1:test-path2") by (vm_compute; reflexivity).
      vm_compute. reflexivity.
  - split; [reflexivity|].
    destruct (@command_search_paths (test_host true) RUN ["a"; "b"] (mkCommandOptions None)
                bare_environment_state)
      as (handle & s & Hrun & _ & _ & _ & Hnode & _ & Hpath).
    { reflexivity. }
    exists handle, s. split; [exact Hrun|]. split.
    + rewrite Hnode by reflexivity. vm_compute. reflexivity.
    + rewrite Hpath by reflexivity. vm_compute. reflexivity.
Defined.

(** C7. The environment of every command that [install], [build] or [run]
    spawns is the parent's environment, overlaid with the caller's overlay,
    then with the composed [NODE_PATH] and [PATH].  So these two have the
    composed values whatever the parent and the overlay hold; any other
    variable of the overlay has the overlay's value; any other variable
    that the overlay does not name has the parent's value; and every
    variable set in the parent is set in the spawned environment. *)
Theorem command_environment `{Host} (cmd : COMMAND) (args : list string)
    (options : CommandOptions) (st : State) :
  isInitialized (this st) = true →
  let overlay := default ∅ (options_env options) in
  let parent := process_env (world st) in
  ∃ handle s,
    method_of cmd args options st = (Ok handle, record_spawn s st)
    ∧ spawn_env s
      = <["PATH" := systemPath_of (this st) (world st)]>
          (<["NODE_PATH" := nodePath_of (this st) (world st)]> (overlay ∪ parent))
    ∧ spawn_env s !! "PATH" = Some (systemPath_of (this st) (world st))
    ∧ spawn_env s !! "NODE_PATH" = Some (nodePath_of (this st) (world st))
    ∧ (∀ k v, k ≠ "PATH" → k ≠ "NODE_PATH" →
         overlay !! k = Some v → spawn_env s !! k = Some v)
    ∧ (∀ k, k ≠ "PATH" → k ≠ "NODE_PATH" →
         overlay !! k = None → spawn_env s !! k = parent !! k)
    ∧ (∀ k, is_Some (parent !! k) → is_Some (spawn_env s !! k)).
Proof.
  intros Hflag overlay parent. eexists _, (spawn_of cmd args options st).
  split; [|split; [|split; [|split; [|split; [|split]]]]].
  - rewrite method_of_runCommand. by apply runCommand_initialized.
  - done.
  - apply command_env_PATH.
  - apply command_env_NODE_PATH.
  - intros k v HP HN Hk. simpl. rewrite command_env_other by done.
    by apply lookup_union_Some_l.
  - intros k HP HN Hk. simpl. rewrite command_env_other by done.
    by apply lookup_union_r.
  - intros k [v Hv]. simpl.
    destruct (decide (k = "PATH")) as [->|HP].
    { rewrite command_env_PATH. eauto. }
    destruct (decide (k = "NODE_PATH")) as [->|HN].
    { rewrite command_env_NODE_PATH. eauto. }
    rewrite command_env_other by done.
    fold overlay. destruct (overlay !! k) as [v'|] eqn:Hk.
    + exists v'. by apply lookup_union_Some_l.
    + exists v. rewrite lookup_union_r by done. done.
Qed.

Lemma command_environment_witness :
  isInitialized (this (test_initialized true)) = true
  ∧ ∃ handle s,
      @method_of (test_host true) INSTALL ["test-arg1"; "test-arg2"]
        (mkCommandOptions (Some {[ "X" := "y" ]})) (test_initialized true)
      = (Ok handle, record_spawn s (test_initialized true))
      ∧ spawn_env s !! "X" = Some "y"
      ∧ spawn_env s !! "HOME" = Some "/home/user".
Proof.
  split; [vm_compute; reflexivity|].
  destruct (@command_environment (test_host true) INSTALL ["test-arg1"; "test-arg2"]
              (mkCommandOptions (Some {[ "X" := "y" ]})) (test_initialized true))
    as (handle & s & Hrun & _ & _ & _ & Hoverlay & Hparent & _).
  { vm_compute; reflexivity. }
  exists handle, s. split; [exact Hrun|]. split.
  - apply Hoverlay; [done|done|]. vm_compute. reflexivity.
  - rewrite Hparent; [|done|done|vm_compute; reflexivity]. vm_compute. reflexivity.
Defined.

(** ** Completion of a command *)

Lemma Promise_resolve_fulfilled (p : Promise) : fulfilled (Promise_resolve p) = true.
Proof. unfold Promise_resolve. by destruct (fulfilled p). Qed.

Lemma Promise_resolve_settlements (p : Promise) :
  well_formed_promise p → settlements (Promise_resolve p) = 1.
Proof.
  unfold well_formed_promise, Promise_resolve.
  destruct (fulfilled p); simpl; intros ->; done.
Qed.

Lemma Promise_resolve_well_formed (p : Promise) :
  well_formed_promise p → well_formed_promise (Promise_resolve p).
Proof.
  intros Hp. unfold well_formed_promise.
  by rewrite Promise_resolve_fulfilled, Promise_resolve_settlements.
Qed.

(** With the three listeners the class subscribes, an event calls [resolve]
    when it is [exit], [close] or [error], and does nothing otherwise. *)
Lemma emit_subscribed (event : string) (p : Promise) (on : bool) :
  emit event (mkCommandHandle p (mkChildProcess on ["exit"; "close"; "error"]))
  = mkCommandHandle (if is_terminal event then Promise_resolve p else p)
      (mkChildProcess on ["exit"; "close"; "error"]).
Proof.
  unfold emit, is_terminal. simpl.
  repeat case_decide; repeat case_bool_decide; simplify_eq; done.
Qed.

Lemma emit_not_subscribed (event : string) (p : Promise) (on : bool) :
  emit event (mkCommandHandle p (mkChildProcess on []))
  = mkCommandHandle p (mkChildProcess on []).
Proof. done. Qed.

Lemma emit_all_subscribed (events : list string) (p : Promise) (on : bool) :
  well_formed_promise p →
  let h := emit_all events (mkCommandHandle p (mkChildProcess on ["exit"; "close"; "error"])) in
  fulfilled (waitCompletion h) = fulfilled p || existsb is_terminal events
  ∧ well_formed_promise (waitCompletion h).
Proof.
  revert p. induction events as [|e events IH]; intros p Hp; simpl.
  { by rewrite orb_false_r. }
  unfold emit_all in *. simpl. rewrite emit_subscribed.
  destruct (is_terminal e); simpl.
  - destruct (IH (Promise_resolve p) (Promise_resolve_well_formed p Hp)) as [Hf Hw].
    split; [|done]. rewrite Hf, Promise_resolve_fulfilled. simpl.
    by rewrite orb_true_r.
  - by apply IH.
Qed.

Lemma emit_all_not_subscribed (events : list string) (p : Promise) (on : bool) :
  emit_all events (mkCommandHandle p (mkChildProcess on []))
  = mkCommandHandle p (mkChildProcess on []).
Proof.
  induction events as [|e events IH]; [done|].
  unfold emit_all in *. simpl. by rewrite emit_not_subscribed.
Qed.

(** C8. The handle that [install], [build] or [run] returns holds a
    completion promise that, when the process object has an [on] method,
    is pending at first and, after any sequence of events of the process,
    is fulfilled exactly when one of them was [exit], [close] or [error],
    having settled once then and never otherwise: the first such event
    settles it and no later one settles it again.  When the process object
    has no [on] method the promise is fulfilled as soon as the handle is
    returned, settled once, and stays so. *)
Theorem completion_settles_once `{Host} (cmd : COMMAND) (args : list string)
    (options : CommandOptions) (st : State) :
  isInitialized (this st) = true →
  ∃ handle st',
    method_of cmd args options st = (Ok handle, st')
    ∧ (exec_has_on = true →
         fulfilled (waitCompletion handle) = false
         ∧ settlements (waitCompletion handle) = 0
         ∧ ∀ events,
             let p := waitCompletion (emit_all events handle) in
             fulfilled p = existsb is_terminal events
             ∧ settlements p = (if existsb is_terminal events then 1 else 0))
    ∧ (exec_has_on = false →
         ∀ events,
           let p := waitCompletion (emit_all events handle) in
           fulfilled p = true ∧ settlements p = 1).
Proof.
  intros Hflag. eexists _, _. split.
  { rewrite method_of_runCommand. by apply runCommand_initialized. }
  unfold completion. simpl. split; intros Hon; rewrite Hon.
  - split; [done|]. split; [done|]. intros events. simpl.
    unfold ChildProcess_on. simpl.
    destruct (emit_all_subscribed events pending_promise true) as [Hf Hw]; [done|].
    simpl in *. rewrite Hw, Hf. done.
  - intros events. rewrite emit_all_not_subscribed. done.
Qed.

Lemma completion_settles_once_witness :
  isInitialized (this (test_initialized true)) = true
  ∧ ∃ handle st',
      @method_of (test_host true) INSTALL ["test-arg1"; "test-arg2"]
        (mkCommandOptions None) (test_initialized true) = (Ok handle, st')
      ∧ settlements (waitCompletion (emit_all ["spawn"] handle)) = 0
      ∧ settlements (waitCompletion (emit_all ["spawn"; "exit"; "close"] handle)) = 1.
Proof.
  split; [vm_compute; reflexivity|].
  destruct (@completion_settles_once (test_host true) INSTALL ["test-arg1"; "test-arg2"]
              (mkCommandOptions None) (test_initialized true))
    as (handle & st' & Hrun & Hon & _).
  { vm_compute; reflexivity. }
  exists handle, st'. split; [exact Hrun|].
  destruct (Hon eq_refl) as (_ & _ & Hevents). split.
  - apply (Hevents ["spawn"]).
  - apply (Hevents ["spawn"; "exit"; "close"]).
Defined.

(** ** What the methods leave unchanged *)

Section Frames.
Context (R : State → State → Prop) `{!PreOrder R}.

(** [R] only looks at the object. *)
Hypothesis R_world : ∀ t w w', R (mkState t w) (mkState t w').

Lemma preserves_ret {A : Type} (a : A) : preserves R (ret a).
Proof. intros st. done. Qed.

Lemma preserves_throw {A : Type} (e : js_error) : preserves R (@throw A e).
Proof. intros st. done. Qed.

Lemma preserves_lift {A : Type} (r : result A) : preserves R (lift r).
Proof. intros st. done. Qed.

Lemma preserves_get_state : preserves R get_state.
Proof. intros st. done. Qed.

Lemma preserves_update_world (f : World → World) : preserves R (update_world f).
Proof. intros [t w]. apply R_world. Qed.

Lemma preserves_update_this (f : Sandbox → Sandbox) :
  (∀ t w, R (mkState t w) (mkState (f t) w)) → preserves R (update_this f).
Proof. intros Hf [t w]. apply Hf. Qed.

Lemma preserves_bind {A B : Type} (m : M A) (k : A → M B) :
  preserves R m → (∀ a, preserves R (k a)) → preserves R (x ← m; k x).
Proof.
  intros Hm Hk st. unfold mbind, M_bind, bind.
  specialize (Hm st). destruct (m st) as [[a|e] st']; simpl in *; [|done].
  etrans; [exact Hm|]. apply Hk.
Qed.

Lemma preserves_for_each {A : Type} (f : A → M unit) (xs : list A) :
  (∀ x, preserves R (f x)) → preserves R (for_each f xs).
Proof.
  intros Hf. induction xs as [|x xs IH]; simpl.
  - apply preserves_ret.
  - apply preserves_bind; [apply Hf|]. intros _. apply IH.
Qed.

Lemma preserves_readJson (path : string) : preserves R (readJson path).
Proof.
  apply preserves_bind; [apply preserves_get_state|]. intros st.
  destruct (files (world st) !! path) as [[content|]|];
    auto using preserves_ret, preserves_throw.
Qed.

Lemma preserves_throwIfNotInitialized : preserves R throwIfNotInitialized.
Proof.
  apply preserves_bind; [apply preserves_get_state|]. intros st.
  destruct (isInitialized (this st)); auto using preserves_ret, preserves_throw.
Qed.

Lemma preserves_getConfig : preserves R getConfig.
Proof.
  apply preserves_bind; [apply preserves_throwIfNotInitialized|]. intros _.
  apply preserves_bind; [apply preserves_get_state|]. intros st.
  apply preserves_ret.
Qed.

Context `{Host}.

Lemma preserves_fs_call op : preserves R (fs_call op).
Proof.
  apply preserves_bind; [apply preserves_get_state|]. intros st.
  apply preserves_bind; [apply preserves_lift|]. intros fs.
  apply preserves_update_world.
Qed.

Lemma preserves_loadModulesDefinition : preserves R loadModulesDefinition.
Proof.
  apply preserves_bind; [apply preserves_get_state|]. intros st.
  apply preserves_bind.
  { apply preserves_bind; [apply preserves_get_state|]. intros st'.
    apply preserves_ret. }
  intros [|]; [apply preserves_readJson|apply preserves_ret].
Qed.

Lemma preserves_generateModulesDefinition : preserves R generateModulesDefinition.
Proof.
  apply preserves_bind; [apply preserves_get_state|]. intros st.
  apply preserves_bind; [apply preserves_lift|]. intros loaded.
  apply preserves_bind; [apply preserves_loadModulesDefinition|]. intros def.
  apply preserves_update_world.
Qed.

Lemma preserves_runCommand cmd args options : preserves R (runCommand cmd args options).
Proof.
  apply preserves_bind; [apply preserves_throwIfNotInitialized|]. intros _.
  apply preserves_bind; [apply preserves_get_state|]. intros st.
  apply preserves_bind; [|intros p; apply preserves_ret].
  apply preserves_bind; [apply preserves_update_world|]. intros _.
  apply preserves_ret.
Qed.

(** The configuration is not looked at either. *)
Hypothesis R_config : ∀ t w c, R (mkState t w) (mkState (set_config c t) w).

Lemma preserves_update_config (f : Config → Config) : preserves R (update_config f).
Proof. apply preserves_update_this. intros t w. apply R_config. Qed.

Lemma preserves_loadConfig : preserves R loadConfig.
Proof.
  apply preserves_bind; [apply preserves_get_state|]. intros st.
  apply preserves_bind; [apply preserves_readJson|]. intros content.
  apply preserves_bind; [apply preserves_lift|]. intros file.
  apply preserves_bind.
  { apply preserves_update_this. intros t w. apply R_config. }
  intros _.
  apply preserves_bind; [apply preserves_get_state|]. intros st1.
  apply preserves_bind; [apply preserves_lift|]. intros copied.
  apply preserves_bind; [apply preserves_update_config|]. intros _.
  apply preserves_bind; [apply preserves_get_state|]. intros st2.
  apply preserves_bind; [apply preserves_lift|]. intros modules.
  apply preserves_bind; [apply preserves_update_config|]. intros _.
  apply preserves_bind; [apply preserves_get_state|]. intros st3.
  apply preserves_bind.
  { apply preserves_for_each. intros entry.
    apply preserves_bind; [apply preserves_get_state|]. intros st4.
    apply preserves_bind; [apply preserves_lift|]. intros resolved.
    apply preserves_update_config. }
  intros _.
  apply preserves_bind; [apply preserves_get_state|]. intros st5.
  apply preserves_bind; [apply preserves_lift|]. intros cmd.
  apply preserves_update_config.
Qed.

(** Nor is the flag. *)
Hypothesis R_flag : ∀ t w b, R (mkState t w) (mkState (set_isInitialized b t) w).

Lemma preserves_clear : preserves R clear.
Proof.
  apply preserves_bind.
  { apply preserves_bind; [apply preserves_get_state|]. intros st.
    apply preserves_update_world. }
  intros _. apply preserves_update_this. intros t w. apply R_flag.
Qed.

Lemma preserves_init : preserves R init.
Proof.
  apply preserves_bind; [apply preserves_clear|]. intros _.
  apply preserves_bind; [apply preserves_get_state|]. intros st.
  apply preserves_bind; [apply preserves_fs_call|]. intros _.
  apply preserves_bind; [apply preserves_loadConfig|]. intros _.
  apply preserves_bind; [apply preserves_get_state|]. intros st'.
  apply preserves_bind.
  { apply preserves_for_each. intros op. apply preserves_fs_call. }
  intros _.
  apply preserves_bind; [apply preserves_generateModulesDefinition|]. intros _.
  apply preserves_update_this. intros t w. apply R_flag.
Qed.

Lemma preserves_after_call (c : call) (st : State) : R st (after_call c st).
Proof.
  destruct c as [| | |cmd args options]; simpl.
  - apply preserves_init.
  - apply preserves_clear.
  - apply preserves_getConfig.
  - rewrite method_of_runCommand. apply preserves_runCommand.
Qed.

Lemma preserves_after_calls (cs : list call) (st : State) : R st (after_calls cs st).
Proof.
  revert st. induction cs as [|c cs IH]; intros st; [done|].
  unfold after_calls in *. simpl. etrans; [apply preserves_after_call|]. apply IH.
Qed.

End Frames.

(** ** The paths of the sandbox *)

Global Instance same_paths_preorder : PreOrder same_paths.
Proof.
  split.
  - intros st. by unfold same_paths.
  - intros st1 st2 st3 (Ha & Hb & Hc) (Ha' & Hb' & Hc'). unfold same_paths.
    by rewrite Ha', Hb', Hc'.
Qed.

Lemma same_paths_world (t : Sandbox) (w w' : World) :
  same_paths (mkState t w) (mkState t w').
Proof. done. Qed.

Lemma same_paths_config (t : Sandbox) (w : World) (c : Config) :
  same_paths (mkState t w) (mkState (set_config c t) w).
Proof. done. Qed.

Lemma same_paths_flag (t : Sandbox) (w : World) (b : bool) :
  same_paths (mkState t w) (mkState (set_isInitialized b t) w).
Proof. done. Qed.

Lemma Posix_resolve_absolute (cwd : string) (args : list string) :
  is_absolute (Posix.resolve cwd args) = true.
Proof. reflexivity. Qed.

(** C10. [getPath], [getProjectPath] and [getScenarioPath] return in every
    state, initialized or not, and what they return after any sequence of
    calls of [init], [clear], [getConfig], [install], [build] and [run],
    whether these return or throw, is what the constructor computed: the
    resolution of the sandbox root with the random token, the resolution of
    the project path, the resolution of the scenario path.  These are
    absolute as every result of [path.resolve] is. *)
Theorem paths_fixed_at_construction `{Host} (params : Params.t) (random : string)
    (w : World) (calls : list call) :
  (∀ args, is_absolute (path_resolve args) = true) →
  let st := after_calls calls (mkState (new_Sandbox params random w) w) in
  let root := default DEFAULT_SANDBOX_PATH (Params.sandboxPath params) in
  let project := default DEFAULT_PROJECT_PATH (Params.projectPath params) in
  getPath (this st) = Ok (path_resolve [root; random])
  ∧ getProjectPath (this st) = Ok (path_resolve [project])
  ∧ getScenarioPath (this st) = Ok (path_resolve [Params.scenarioPath params])
  ∧ is_absolute (sandboxPath (this st)) = true
  ∧ is_absolute (projectPath (this st)) = true
  ∧ is_absolute (scenarioPath (this st)) = true.
Proof.
  intros Habs st root project.
  assert (same_paths (mkState (new_Sandbox params random w) w) st) as (Ha & Hb & Hc).
  { apply preserves_after_calls; [apply _|done..]. }
  unfold getPath, getProjectPath, getScenarioPath.
  rewrite Ha, Hb, Hc. simpl. by rewrite !Habs.
Qed.

Lemma paths_fixed_at_construction_witness :
  (∀ args, is_absolute (@path_resolve (test_host true) args) = true)
  ∧ getPath
      (this (@after_calls (test_host true)
               [CallGetConfig; CallInit; CallCommand RUN ["a"] (mkCommandOptions None);
                CallClear]
               test_state))
    = Ok "/work/.alliage-sandboxes/k3x9".
Proof.
  split; [intros args; reflexivity|].
  destruct (@paths_fixed_at_construction (test_host true) test_params "k3x9" test_world
              [CallGetConfig; CallInit; CallCommand RUN ["a"] (mkCommandOptions None);
               CallClear])
    as (Hpath & _).
  { intros args. reflexivity. }
  exact Hpath.
Defined.

(** ** The initialization flag *)

Global Instance same_flag_preorder : PreOrder same_flag.
Proof.
  split.
  - intros st. by unfold same_flag.
  - intros st1 st2 st3 Ha Hb. unfold same_flag in *. by rewrite Hb.
Qed.

Lemma flag_tracks_bind {A B : Type} (m : M A) (k : A → M B) :
  preserves same_flag m → (∀ a, flag_tracks_result (k a)) →
  flag_tracks_result (x ← m; k x).
Proof.
  intros Hm Hk st Hflag. unfold mbind, M_bind, bind.
  specialize (Hm st). unfold same_flag in Hm.
  destruct (m st) as [[a|e] st']; simpl in *.
  - apply Hk. by rewrite Hm.
  - by rewrite Hm.
Qed.

Lemma clear_eq (st : State) :
  clear st
  = (Ok tt,
     mkState (set_isInitialized false (this st))
       (mkWorld (files (world st)) (process_env (world st))
          (sandboxPath (this st) :: pending_removals (world st)) (spawned (world st)))).
Proof. by destruct st. Qed.

(** [clear] returns with the flag down, the removal started, and the files
    as they were. *)
Lemma clear_keeps_files (st : State) :
  fst (clear st) = Ok tt
  ∧ isInitialized (this (snd (clear st))) = false
  ∧ files (world (snd (clear st))) = files (world st)
  ∧ pending_removals (world (snd (clear st)))
    = sandboxPath (this st) :: pending_removals (world st).
Proof. by rewrite clear_eq. Qed.

(** After [init] the flag is up exactly when [init] returned. *)
Lemma init_flag `{Host} (st : State) :
  isInitialized (this (snd (init st))) = is_ok (fst (init st)).
Proof.
  unfold init. rewrite (bind_ok _ _ _ _ _ (clear_eq st)).
  apply flag_tracks_bind; [|intros st1|done].
  { apply preserves_get_state; apply _. }
  apply flag_tracks_bind; [|intros _].
  { apply preserves_fs_call; [apply _|done]. }
  apply flag_tracks_bind; [|intros _].
  { apply preserves_loadConfig; [apply _|done]. }
  apply flag_tracks_bind; [|intros st2].
  { apply preserves_get_state; apply _. }
  apply flag_tracks_bind; [|intros _].
  { apply preserves_for_each; [apply _|]. intros op.
    apply preserves_fs_call; [apply _|done]. }
  apply flag_tracks_bind; [|intros _].
  { apply preserves_generateModulesDefinition; [apply _|done]. }
  intros st3 _. done.
Qed.

(** The calls other than [init] and [clear] leave the flag as it is. *)
Lemma commands_keep_flag `{Host} (cmd : COMMAND) (args : list string)
    (options : CommandOptions) :
  preserves same_flag getConfig ∧ preserves same_flag (method_of cmd args options).
Proof.
  split.
  - apply preserves_getConfig. apply _.
  - rewrite method_of_runCommand. apply preserves_runCommand; [apply _|done].
Qed.

(** C9. [clear] returns before the directory is removed.  On a world where
    the sandbox directory does not exist yet, [init] returns with the flag
    up and the manifest written; [clear] then returns with the flag down
    and the manifest still in place: the removal has only been started, and
    it is its completion, a later step of the environment, that takes the
    file away.  The same holds when the directory was there before the
    first [init], as in the test suite. *)
Theorem clear_returns_before_removal :
  let initialized := @after_calls (test_host true) [CallInit] fresh_state in
  let cleared := @after_calls (test_host true) [CallInit; CallClear] fresh_state in
  isInitialized (this initialized) = true
  ∧ files (world initialized) !! test_manifest_path = Some (JsonFile (JObj []))
  ∧ fst (clear initialized) = Ok tt
  ∧ isInitialized (this cleared) = false
  ∧ files (world cleared) !! test_manifest_path = Some (JsonFile (JObj []))
  ∧ pending_removals (world cleared) = [test_sandbox_path; test_sandbox_path]
  ∧ files (complete_removal test_sandbox_path (world cleared)) !! test_manifest_path = None
  ∧ files (world (snd (clear test_state))) !! test_sandbox_path = Some OtherNode
  ∧ files (world (snd (clear test_state))) !! test_manifest_path
    = Some (JsonFile test_existing_manifest).
Proof. vm_compute. repeat split; reflexivity. Qed.

(** ** Placeholder resolution *)

Section Placeholders.
Variable this : Sandbox.

Lemma replace_from_search (c : ascii) (r : string) :
  replace_from this 0 (String c r)
  = match match_placeholder (String c r) with
    | Some (name, _) =>
        v ← replacer this ("<" +:+ name +:+ ">") name;
        rest ← replace_from this (S (String.length name)) r;
        Ok (v +:+ rest)
    | None =>
        rest ← replace_from this 0 r;
        Ok (String c rest)
    end.
Proof. reflexivity. Qed.

Lemma replace_from_skip (s t : string) (k : nat) :
  replace_from this (String.length s + k) (s +:+ t) = replace_from this k t.
Proof.
  induction s as [|c s IH]; [done|].
  rewrite app_cons. simpl. exact IH.
Qed.

Lemma span_letters_token (name post : string) :
  all_letters name = true →
  Str.span_letters (name +:+ String ">"%char post) = (name, String ">"%char post).
Proof.
  induction name as [|c name IH]; [done|]. simpl.
  intros [Hc Hname]%andb_true_iff.
  rewrite Hc, (IH Hname). done.
Qed.

Lemma match_placeholder_token (name post : string) :
  name ≠ "" → all_letters name = true →
  match_placeholder ("<" +:+ name +:+ ">" +:+ post) = Some (name, post).
Proof.
  intros Hne Hname. change ("<" +:+ name +:+ ">" +:+ post)
    with (String "<"%char (name +:+ String ">"%char post)).
  unfold match_placeholder. rewrite span_letters_token by done.
  by destruct name.
Qed.

Lemma match_placeholder_other (c : ascii) (s : string) :
  c ≠ "<"%char → match_placeholder (String c s) = None.
Proof.
  intros Hc. destruct c as [[] [] [] [] [] [] [] []]; done.
Qed.

(** A token at the start of the string: the callback decides what stands
    for it, and the search goes on after the token, in the input. *)
Lemma replacePlaceholder_token (name post : string) :
  name ≠ "" → all_letters name = true →
  replacePlaceholder this ("<" +:+ name +:+ ">" +:+ post)
  = (v ← replacer this ("<" +:+ name +:+ ">") name;
     rest ← replacePlaceholder this post;
     Ok (v +:+ rest)).
Proof.
  intros Hne Hname. unfold replacePlaceholder.
  pose proof (match_placeholder_token name post Hne Hname) as Hmatch.
  change ("<" +:+ name +:+ ">" +:+ post)
    with (String "<"%char (name +:+ String ">"%char post)) in *.
  rewrite replace_from_search, Hmatch.
  replace (S (String.length name)) with (String.length (name +:+ ">") + 0).
  - change (name +:+ String ">"%char post) with (name +:+ (">" +:+ post)).
    rewrite <- app_assoc_string, replace_from_skip. done.
  - clear. induction name as [|c name IH]; [done|].
    rewrite app_cons. simpl. by rewrite <- IH.
Qed.

(** Text without an opening angle bracket is copied. *)
Lemma replacePlaceholder_text (pre s : string) :
  Str.has_char "<"%char pre = false →
  replacePlaceholder this (pre +:+ s)
  = (r ← replacePlaceholder this s; Ok (pre +:+ r)).
Proof.
  unfold replacePlaceholder. induction pre as [|c pre IH]; intros Hpre.
  - simpl. rewrite app_empty_l. by destruct (replace_from this 0 s).
  - simpl in Hpre. case_decide as Hc; [done|].
    rewrite app_cons, replace_from_search.
    rewrite match_placeholder_other by done. rewrite (IH Hpre).
    by destruct (replace_from this 0 s).
Qed.

Lemma replacePlaceholder_plain (s : string) :
  Str.has_char "<"%char s = false → replacePlaceholder this s = Ok s.
Proof.
  intros Hs. rewrite <- (app_empty_r s) at 1.
  rewrite replacePlaceholder_text by done. simpl. by rewrite app_empty_r.
Qed.

(** The two known tokens stand for the two paths, whatever the paths
    contain: what is substituted is not searched. *)
Lemma replacePlaceholder_projectRoot (post : string) :
  replacePlaceholder this ("<projectRoot>" +:+ post)
  = (rest ← replacePlaceholder this post; Ok (projectPath this +:+ rest)).
Proof.
  change ("<projectRoot>" +:+ post) with ("<" +:+ "projectRoot" +:+ ">" +:+ post).
  by rewrite replacePlaceholder_token.
Qed.

Lemma replacePlaceholder_scenarioRoot (post : string) :
  replacePlaceholder this ("<scenarioRoot>" +:+ post)
  = (rest ← replacePlaceholder this post; Ok (scenarioPath this +:+ rest)).
Proof.
  change ("<scenarioRoot>" +:+ post) with ("<" +:+ "scenarioRoot" +:+ ">" +:+ post).
  by rewrite replacePlaceholder_token.
Qed.

(** A token whose name the table does not answer for stays as it is. *)
Lemma replacePlaceholder_unknown (name post : string) :
  name ≠ "" → all_letters name = true →
  placeholdersMapping_get name = None →
  replacePlaceholder this ("<" +:+ name +:+ ">" +:+ post)
  = (rest ← replacePlaceholder this post; Ok ("<" +:+ name +:+ ">" +:+ rest)).
Proof.
  intros Hne Hname Hget. rewrite replacePlaceholder_token by done.
  unfold replacer. rewrite Hget. simpl.
  destruct (replacePlaceholder this post) as [rest|e]; simpl; [|done].
  by rewrite !app_assoc_string.
Qed.

(** The names the table answers for: the two of the enumeration and the
    seven inherited ones. *)
Lemma placeholdersMapping_get_None (name : string) :
  placeholdersMapping_get name = None
  ↔ name ∉ ["projectRoot"; "scenarioRoot"] ++ Object_prototype_methods.
Proof.
  unfold placeholdersMapping_get, Object_prototype_methods. simpl.
  destruct (decide (name = "projectRoot")) as [->|H1].
  { split; [done|]. intros Hn. destruct Hn. apply elem_of_cons. by left. }
  destruct (decide (name = "scenarioRoot")) as [->|H2].
  { split; [done|]. intros Hn. destruct Hn. apply elem_of_cons. right.
    apply elem_of_cons. by left. }
  case_bool_decide as Hin.
  - split; [done|]. intros Hn. destruct Hn. by do 2 (apply elem_of_cons; right).
  - split; [|done]. intros _.
    apply not_elem_of_cons; split; [done|]. by apply not_elem_of_cons.
Qed.

(** Several tokens in one string, in any order and repeated; the paths are
    arbitrary, so what is substituted is not searched again. *)
Lemma replacePlaceholder_several :
  replacePlaceholder this "<scenarioRoot>/a:<projectRoot>/b:<scenarioRoot><projectRoot>"
  = Ok (scenarioPath this +:+ "/a:" +:+ projectPath this +:+ "/b:"
        +:+ scenarioPath this +:+ projectPath this +:+ "").
Proof. reflexivity. Qed.

(** Malformed tokens are copied: no name, a digit in the name, no closing
    bracket, a space in the name. *)
Lemma replacePlaceholder_malformed :
  replacePlaceholder this "<>/<root1>/<projectRoot/<project Root>"
  = Ok "<>/<root1>/<projectRoot/<project Root>".
Proof. reflexivity. Qed.

(** C3. The token [<constructor>] is not left unchanged: the table of
    placeholders is a plain object, the lookup of [constructor] finds the
    inherited [Object], the call returns an empty object, and [replace]
    writes it as a string. *)
Theorem replacePlaceholder_inherited_name :
  replacePlaceholder this "<constructor>/test" = Ok "[object Object]/test"
  ∧ replacePlaceholder this "<unknownPlaceholder>/test" = Ok "<unknownPlaceholder>/test"
  ∧ replacePlaceholder this "<toString>" = Ok "[object Undefined]"
  ∧ is_ok (replacePlaceholder this "<valueOf>") = false.
Proof. repeat split; reflexivity. Qed.

End Placeholders.

(** ** Entries of the module manifest *)

(** A package manifest registers an entry exactly when it is an object
    whose [alliageManifest] is an object with [type] equal to [module] and
    whose [name] converts to a property key; the key is that conversion,
    the entry holds the identifier as declared and the [dependencies] as
    they are. *)
Lemma module_entry_of_Some (moduleName : string) (packageInfo : json)
    (name : string) (entry : ModuleEntry) :
  module_entry_of moduleName packageInfo = Ok (Some (name, entry))
  ↔ ∃ props manifest,
      packageInfo = JObj props
      ∧ obj_get props "alliageManifest" = Some (JObj manifest)
      ∧ obj_get manifest "type" = Some (JStr "module")
      ∧ to_property_key (obj_get props "name") = Ok name
      ∧ entry = mkModuleEntry moduleName (obj_get manifest "dependencies").
Proof.
  unfold module_entry_of. split.
  - destruct packageInfo as [| | | | |props]; simpl; try done.
    destruct (obj_get props "alliageManifest") as [am|] eqn:Ham; simpl; [|done].
    destruct am as [|b|n|s|xs|manifest]; simpl; try done.
    + by destruct b.
    + by destruct (negb (bool_decide (n = "0"))).
    + by destruct (negb (bool_decide (s = ""))).
    + destruct (obj_get manifest "type") as [ty|] eqn:Hty; simpl; [|done].
      destruct ty as [| | |t| |]; simpl; try done.
      case_bool_decide as Ht; simpl; [|done]. subst t.
      destruct (to_property_key (obj_get props "name")) as [key|e] eqn:Hkey; simpl; [|done].
      intros [= <- <-]. by exists props, manifest.
  - intros (props & manifest & -> & Ham & Hty & Hkey & ->). simpl.
    rewrite Ham. simpl. rewrite Hty. simpl. by rewrite Hkey.
Qed.

(** A manifest of another type registers nothing. *)
Lemma module_entry_of_other_type (moduleName : string) (props manifest : list (string * json)) :
  obj_get props "alliageManifest" = Some (JObj manifest) →
  obj_get manifest "type" ≠ Some (JStr "module") →
  module_entry_of moduleName (JObj props) = Ok None.
Proof.
  intros Ham Hty. unfold module_entry_of. simpl. rewrite Ham. simpl.
  destruct (obj_get manifest "type") as [[| | |t| |]|]; simpl; try done.
  case_bool_decide; [by subst|done].
Qed.

(** C6, as amended. The entry registered for an identifier whose package
    manifest has [alliageManifest.type] equal to [module] holds, as [deps],
    [alliageManifest.dependencies] as it is: the sequence when the field is
    there, and nothing when it is absent, in which case the entry written
    to the manifest file has no [deps] field. *)
Theorem registered_deps (moduleName : string) (packageInfo : json)
    (name : string) (entry : ModuleEntry) :
  module_entry_of moduleName packageInfo = Ok (Some (name, entry)) →
  module entry = moduleName
  ∧ deps entry = manifest_dependencies packageInfo
  ∧ get_prop (entry_to_json entry) "deps" = Ok (manifest_dependencies packageInfo)
  ∧ get_prop (entry_to_json entry) "module" = Ok (Some (JStr moduleName)).
Proof.
  intros (props & manifest & -> & Ham & Hty & _ & ->)%module_entry_of_Some.
  unfold manifest_dependencies. simpl. rewrite Ham. simpl.
  repeat split. by destruct (obj_get manifest "dependencies").
Qed.

Lemma registered_deps_witness :
  module_entry_of "alliage-fake-module" test_fake_module
  = Ok (Some ("alliage-fake-module",
              mkModuleEntry "alliage-fake-module" (Some (JArr [JStr "alliage-dummy-module"]))))
  ∧ deps (mkModuleEntry "alliage-fake-module" (Some (JArr [JStr "alliage-dummy-module"])))
    = manifest_dependencies test_fake_module.
Proof.
  split; [reflexivity|].
  apply (registered_deps "alliage-fake-module" test_fake_module "alliage-fake-module").
  reflexivity.
Defined.

(** C6, as stated, fails: for a manifest of type [module] without
    [dependencies] the entry has no [deps], not the empty sequence. *)
Lemma deps_not_defaulted :
  ¬ (∀ moduleName packageInfo name entry,
       module_entry_of moduleName packageInfo = Ok (Some (name, entry)) →
       deps entry = deps_with_default packageInfo).
Proof.
  intros Hclaim.
  specialize (Hclaim "alliage-fake-module" module_without_dependencies
                "alliage-fake-module" (mkModuleEntry "alliage-fake-module" None) eq_refl).
  discriminate Hclaim.
Qed.

(** ** The module manifest *)

Section Manifest.
Context `{Host}.

Lemma readJson_eq (path : string) (st : State) :
  readJson path st
  = (match files (world st) !! path with
     | Some (JsonFile content) => Ok content
     | _ => Throw (IOError path)
     end, st).
Proof.
  unfold readJson, mbind, M_bind, bind, get_state.
  by destruct (files (world st) !! path) as [[content|]|].
Qed.

Lemma loadModulesDefinition_eq (st : State) :
  loadModulesDefinition st
  = (existing_manifest (files (world st))
       (path_resolve [sandboxPath (this st); ALLIAGE_MODULES_FILE_NAME]), st).
Proof.
  unfold loadModulesDefinition, pathExists, existing_manifest.
  unfold mbind, M_bind, bind, get_state, ret. simpl.
  case_bool_decide as Hex.
  - rewrite readJson_eq. destruct Hex as [[content|] Hex]; by rewrite Hex.
  - destruct (files (world st) !! _) as [node|] eqn:Hnode; [|done].
    destruct Hex. by exists node.
Qed.

(** What one callback does to the table. *)
Lemma load_module_registers st loaded moduleName name entry :
  registers st moduleName name entry →
  load_module st loaded moduleName = Ok (object_set loaded name entry).
Proof.
  intros (path & info & Hpath & Hfile & Hentry). unfold load_module.
  rewrite Hpath. simpl. rewrite readJson_eq, Hfile. simpl. by rewrite Hentry.
Qed.

Lemma load_module_inv st loaded loaded' moduleName :
  load_module st loaded moduleName = Ok loaded' →
  (∃ name entry, registers st moduleName name entry
                 ∧ loaded' = object_set loaded name entry)
  ∨ (loaded' = loaded ∧ ∀ name entry, ¬ registers st moduleName name entry).
Proof.
  unfold load_module.
  destruct (resolve_package_json st moduleName) as [path|e] eqn:Hpath; simpl; [|done].
  rewrite readJson_eq. simpl.
  destruct (files (world st) !! path) as [[info|]|] eqn:Hfile; simpl; try done.
  destruct (module_entry_of moduleName info) as [[[name entry]|]|e] eqn:Hentry;
    simpl; [| |done].
  - intros [= <-]. left. exists name, entry. split; [|done]. by exists path, info.
  - intros [= <-]. right. split; [done|].
    intros name entry (path' & info' & Hpath' & Hfile' & Hentry').
    congruence.
Qed.

Lemma object_set_lookup {A : Type} (o : gmap string A) (key k : string) (v : A) :
  object_set o key v !! k
  = if decide (key = k ∧ key ≠ "__proto__") then Some v else o !! k.
Proof.
  unfold object_set. case_decide as Hproto.
  - case_decide as Hk; [by destruct Hk|done].
  - destruct (decide (key = k)) as [->|Hne].
    + rewrite lookup_insert_eq. by rewrite decide_True.
    + rewrite lookup_insert_ne by done. rewrite decide_False; [done|]. by intros [? _].
Qed.

(** The table after all the callbacks.  A name that no declared
    identifier registers keeps what the table had, as does [__proto__];
    what the table has under a name comes from the table before or from
    an identifier that registers that name; a name that an identifier
    registers is in the table. *)
Lemma loaded_frame st (l : list string) acc loaded (k : string) :
  fold_result (load_module st) acc l = Ok loaded →
  (k = "__proto__" ∨ ∀ m e, m ∈ l → ¬ registers st m k e) →
  loaded !! k = acc !! k.
Proof.
  revert acc. induction l as [|x l IH]; intros acc; simpl.
  { by intros [= ->]. }
  destruct (load_module st acc x) as [acc'|e] eqn:Hx; simpl; [|done].
  intros Hfold Hk. rewrite (IH acc' Hfold).
  - apply load_module_inv in Hx as [(name & entry & Hreg & ->)|[-> _]]; [|done].
    rewrite object_set_lookup. case_decide as Hname; [|done].
    destruct Hname as [-> Hproto]. destruct Hk as [->|Hk]; [done|].
    destruct (Hk x entry); [by left|done].
  - destruct Hk as [->|Hk]; [by left|]. right. intros m e Hm. apply Hk. by right.
Qed.

Lemma loaded_sound st (l : list string) acc loaded (k : string) (e : ModuleEntry) :
  fold_result (load_module st) acc l = Ok loaded →
  loaded !! k = Some e →
  acc !! k = Some e ∨ ∃ m, m ∈ l ∧ registers st m k e.
Proof.
  revert acc. induction l as [|x l IH]; intros acc; simpl.
  { intros [= ->]. by left. }
  destruct (load_module st acc x) as [acc'|err] eqn:Hx; simpl; [|done].
  intros Hfold Hk. destruct (IH acc' Hfold Hk) as [Hacc|(m & Hm & Hreg)].
  - apply load_module_inv in Hx as [(name & entry & Hreg & ->)|[-> _]]; [|by left].
    rewrite object_set_lookup in Hacc. case_decide as Hname; [|by left].
    destruct Hname as [-> _]. injection Hacc as ->.
    right. exists x. split; [by left|done].
  - right. exists m. split; [by right|done].
Qed.

Lemma loaded_monotone st (l : list string) acc loaded (k : string) :
  fold_result (load_module st) acc l = Ok loaded →
  is_Some (acc !! k) → is_Some (loaded !! k).
Proof.
  revert acc. induction l as [|x l IH]; intros acc; simpl.
  { by intros [= ->]. }
  destruct (load_module st acc x) as [acc'|err] eqn:Hx; simpl; [|done].
  intros Hfold Hk. apply (IH acc' Hfold).
  apply load_module_inv in Hx as [(name & entry & Hreg & ->)|[-> _]]; [|done].
  rewrite object_set_lookup. by case_decide.
Qed.

Lemma loaded_complete st (l : list string) acc loaded (k m : string) (e : ModuleEntry) :
  fold_result (load_module st) acc l = Ok loaded →
  k ≠ "__proto__" → m ∈ l → registers st m k e →
  is_Some (loaded !! k).
Proof.
  revert acc. induction l as [|x l IH]; intros acc; simpl.
  { intros _ _ Hm. by apply elem_of_nil in Hm. }
  destruct (load_module st acc x) as [acc'|err] eqn:Hx; simpl; [|done].
  intros Hfold Hproto Hm Hreg. apply elem_of_cons in Hm as [->|Hm].
  - apply (loaded_monotone st l acc' loaded k Hfold).
    rewrite (load_module_registers st acc x k e Hreg) in Hx. injection Hx as <-.
    rewrite object_set_lookup. rewrite decide_True by done. by eexists.
  - by apply (IH acc' Hfold Hproto Hm Hreg).
Qed.

Lemma spread_written (merged : gmap string json) :
  spread (JObj (map_to_list merged)) = merged.
Proof. simpl. apply list_to_map_to_list. Qed.

Lemma merged_manifest_lookup modulesDef loaded (k : string) :
  merged_manifest modulesDef loaded !! k
  = match loaded !! k with
    | Some e => Some (entry_to_json e)
    | None => spread modulesDef !! k
    end.
Proof.
  unfold merged_manifest. rewrite lookup_union, lookup_fmap.
  destruct (loaded !! k); simpl; [|by rewrite (left_id_L None union)].
  by destruct (spread modulesDef !! k).
Qed.

End Manifest.

Section ManifestFile.
Context `{Host}.

Lemma generateModulesDefinition_eq (st : State) :
  let defPath := path_resolve [sandboxPath (this st); ALLIAGE_MODULES_FILE_NAME] in
  generateModulesDefinition st
  = match fold_result (load_module st) ∅
            (completion_order (alliageModules (config (this st)))) with
    | Ok loaded =>
        match existing_manifest (files (world st)) defPath with
        | Ok modulesDef =>
            (Ok tt,
             mkState (this st)
               (set_files
                  (<[defPath := JsonFile (JObj (map_to_list (merged_manifest modulesDef loaded)))]>
                     (files (world st)))
                  (world st)))
        | Throw e => (Throw e, st)
        end
    | Throw e => (Throw e, st)
    end.
Proof.
  unfold generateModulesDefinition, mbind, M_bind, bind, get_state, lift. simpl.
  destruct (fold_result _ _ _) as [loaded|e]; [|done].
  rewrite loadModulesDefinition_eq.
  by destruct (existing_manifest _ _) as [modulesDef|e].
Qed.

(** The manifest that [generateModulesDefinition] writes, key by key.
    Under a name other than [__proto__] that a declared identifier
    registers, it holds the entry of a declared identifier that registers
    that name, whatever the manifest found held there.  Under any other
    name it holds what the manifest found held, the empty mapping when
    there was no file. *)
Lemma generateModulesDefinition_manifest (st st' : State) :
  (∀ l, completion_order l ≡ₚ l) →
  generateModulesDefinition st = (Ok tt, st') →
  let defPath := path_resolve [sandboxPath (this st); ALLIAGE_MODULES_FILE_NAME] in
  let declared := alliageModules (config (this st)) in
  ∃ pre written,
    existing_manifest (files (world st)) defPath = Ok pre
    ∧ files (world st') !! defPath = Some (JsonFile written)
    ∧ (∀ k m e, k ≠ "__proto__" → m ∈ declared → registers st m k e →
         ∃ m' e', m' ∈ declared ∧ registers st m' k e'
                  ∧ spread written !! k = Some (entry_to_json e'))
    ∧ (∀ k, (k = "__proto__" ∨ ∀ m e, m ∈ declared → ¬ registers st m k e) →
         spread written !! k = spread pre !! k).
Proof.
  intros Hperm. rewrite generateModulesDefinition_eq. simpl.
  destruct (fold_result _ _ _) as [loaded|err] eqn:Hfold; [|done].
  destruct (existing_manifest _ _) as [pre|err] eqn:Hpre; [|done].
  intros [= <-]. simpl. eexists pre, _. split; [done|].
  split; [by rewrite lookup_insert_eq|]. rewrite spread_written. split.
  - intros k m e Hproto Hm Hreg.
    destruct (loaded_complete st _ ∅ loaded k m e Hfold Hproto) as [e' He']; [|done|].
    { by rewrite Hperm. }
    destruct (loaded_sound st _ ∅ loaded k e' Hfold He') as [Hempty|(m' & Hm' & Hreg')].
    { by rewrite lookup_empty in Hempty. }
    exists m', e'. rewrite Hperm in Hm'. split; [done|]. split; [done|].
    by rewrite merged_manifest_lookup, He'.
  - intros k Hk. rewrite merged_manifest_lookup.
    rewrite (loaded_frame st _ ∅ loaded k Hfold).
    + by rewrite lookup_empty.
    + destruct Hk as [->|Hk]; [by left|]. right. intros m e Hm. apply Hk.
      by rewrite <- (Hperm (alliageModules (config (this st)))).
Qed.

End ManifestFile.

Lemma bind_inv {A B : Type} (m : M A) (k : A → M B) (st st' : State) (b : B) :
  (x ← m; k x) st = (Ok b, st') →
  ∃ a st1, m st = (Ok a, st1) ∧ k a st1 = (Ok b, st').
Proof.
  unfold mbind, M_bind, bind. destruct (m st) as [[a|e] st1]; [|done].
  intros Hk. by exists a, st1.
Qed.

(** When [init] returns, the manifest in the sandbox is the one
    [generateModulesDefinition] wrote, from the resolved configuration the
    object holds, in the state provisioning left. *)
Lemma init_generates `{Host} (st st' : State) :
  init st = (Ok tt, st') →
  ∃ st1 st2,
    generateModulesDefinition st1 = (Ok tt, st2)
    ∧ sandboxPath (this st1) = sandboxPath (this st)
    ∧ config (this st') = config (this st1)
    ∧ world st' = world st2
    ∧ isInitialized (this st') = true
    ∧ this st' = set_isInitialized true (this st1).
Proof.
  unfold init.
  intros ([] & s1 & Hclear & Hrest)%bind_inv.
  apply bind_inv in Hrest as (s1' & ? & [= <- <-] & Hrest).
  apply bind_inv in Hrest as ([] & s2 & Hmkdir & Hrest).
  apply bind_inv in Hrest as ([] & s3 & Hload & Hrest).
  apply bind_inv in Hrest as (s3' & ? & [= <- <-] & Hrest).
  apply bind_inv in Hrest as ([] & s4 & Hprov & Hrest).
  apply bind_inv in Hrest as ([] & s5 & Hgen & Hflag).
  injection Hflag as <-. exists s4, s5. split; [done|].
  assert (same_paths st s4) as (Hpath & _).
  { pose proof (preserves_clear same_paths same_paths_world same_paths_flag st) as H1.
    pose proof (preserves_fs_call same_paths same_paths_world
                  (fs_mkdirp (sandboxPath (this s1))) s1) as H2.
    pose proof (preserves_loadConfig same_paths same_paths_config s2) as H3.
    pose proof (preserves_for_each same_paths fs_call (provisioning (this s3))
                  (preserves_fs_call same_paths same_paths_world) s3) as H4.
    rewrite Hclear in H1. rewrite Hmkdir in H2. rewrite Hload in H3. rewrite Hprov in H4.
    simpl in *. by repeat (etrans; [eassumption|]). }
  split; [done|].
  rewrite generateModulesDefinition_eq in Hgen. simpl in Hgen.
  destruct (fold_result _ _ _) as [loaded|e]; [|done].
  destruct (existing_manifest _ _) as [pre|e]; [|done].
  by injection Hgen as <-.
Qed.

(** After [init]: the manifest in the sandbox, key by key, in terms of the
    configuration [init] loaded and of the manifest that was found.  The
    state [st1] in which the package manifests were read is the one
    [init] leaves, but for the flag and for the manifest file itself. *)
Lemma init_manifest `{Host} (st st' : State) :
  (∀ l, completion_order l ≡ₚ l) →
  init st = (Ok tt, st') →
  let defPath := path_resolve [sandboxPath (this st); ALLIAGE_MODULES_FILE_NAME] in
  let declared := alliageModules (config (this st')) in
  ∃ st1 pre written,
    this st' = set_isInitialized true (this st1)
    ∧ process_env (world st1) = process_env (world st')
    ∧ (∀ p, p ≠ defPath → files (world st1) !! p = files (world st') !! p)
    ∧ existing_manifest (files (world st1)) defPath = Ok pre
    ∧ files (world st') !! defPath = Some (JsonFile written)
    ∧ (∀ k m e, k ≠ "__proto__" → m ∈ declared → registers st1 m k e →
         ∃ m' e', m' ∈ declared ∧ registers st1 m' k e'
                  ∧ spread written !! k = Some (entry_to_json e'))
    ∧ (∀ k, (k = "__proto__" ∨ ∀ m e, m ∈ declared → ¬ registers st1 m k e) →
         spread written !! k = spread pre !! k).
Proof.
  intros Hperm (st1 & st2 & Hgen & Hpath & Hconfig & Hworld & _ & Hthis)%init_generates.
  destruct (generateModulesDefinition_manifest st1 st2 Hperm Hgen)
    as (pre & written & Hpre & Hwritten & Hfresh & Hframe).
  simpl. rewrite Hconfig, Hworld, <- Hpath. exists st1, pre, written.
  split; [done|].
  assert (process_env (world st1) = process_env (world st2)
          ∧ ∀ p, p ≠ path_resolve [sandboxPath (this st1); ALLIAGE_MODULES_FILE_NAME] →
                 files (world st1) !! p = files (world st2) !! p) as [Henv Hfiles].
  { clear Hpre Hwritten Hfresh Hframe.
    rewrite generateModulesDefinition_eq in Hgen. simpl in Hgen.
    destruct (fold_result _ _ _) as [loaded|e]; [|done].
    destruct (existing_manifest _ _) as [pre'|e]; [|done].
    injection Hgen as <-. simpl. split; [done|].
    intros p Hp. by rewrite lookup_insert_ne. }
  done.
Qed.

(** C1. A declared module of type [module] whose package manifest names it
    [__proto__] gets no entry: [init] returns, the manifest it writes is
    the mapping found before, here the empty one.  The table of loaded
    modules is a plain object, and the assignment under that name sets its
    prototype. *)
Theorem init_drops_proto_entry :
  fst (@init (test_host true) proto_state) = Ok tt
  ∧ alliageModules (config (this (snd (@init (test_host true) proto_state))))
    = ["/work/path/to/project/local-module"]
  ∧ module_entry_of "/work/path/to/project/local-module" proto_module
    = Ok (Some ("__proto__", mkModuleEntry "/work/path/to/project/local-module" (Some (JArr []))))
  ∧ files (world (snd (@init (test_host true) proto_state))) !! test_manifest_path
    = Some (JsonFile (JObj [])).
Proof. vm_compute. repeat split; reflexivity. Qed.

(** ** Loading the configuration *)

(** Resolution reads the two paths of the object and nothing else. *)
Lemma replacePlaceholder_paths (t t' : Sandbox) (s : string) :
  projectPath t' = projectPath t → scenarioPath t' = scenarioPath t →
  replacePlaceholder t' s = replacePlaceholder t s.
Proof.
  intros Hp Hs. unfold replacePlaceholder. generalize 0.
  induction s as [|c s IH]; intros skip; [done|].
  destruct skip as [|k]; [|apply IH].
  rewrite !replace_from_search.
  destruct (match_placeholder (String c s)) as [[name rest]|].
  - assert (replacer t' ("<" +:+ name +:+ ">") name
            = replacer t ("<" +:+ name +:+ ">") name) as ->.
    { unfold replacer. destruct (placeholdersMapping_get name) as [[[]|inherited]|]; simpl;
        congruence. }
    by rewrite IH.
  - by rewrite IH.
Qed.

Lemma replacePlaceholder_set_config (t : Sandbox) (c : Config) (s : string) :
  replacePlaceholder (set_config c t) s = replacePlaceholder t s.
Proof. by apply replacePlaceholder_paths. Qed.

Lemma map_result_ext {A B : Type} (f g : A → result B) (xs : list A) :
  (∀ x, f x = g x) → map_result f xs = map_result g xs.
Proof.
  intros Hfg. induction xs as [|x xs IH]; [done|]. simpl. by rewrite Hfg, IH.
Qed.

Lemma map_result_keys {A B : Type} (f : A → result B) (l : list (string * A))
    (l' : list (string * B)) :
  map_result (fun kv => v ← f (snd kv); Ok (fst kv, v)) l = Ok l' → l'.*1 = l.*1.
Proof.
  revert l'. induction l as [|[k a] l IH]; intros l'; simpl.
  { by intros [= <-]. }
  destruct (f a) as [b|e]; simpl; [|done].
  destruct (map_result _ l) as [rest|e]; simpl; [|done].
  intros [= <-]. simpl. f_equal. by apply IH.
Qed.

(** Assigning the bindings of [l] one after the other, when no key comes
    twice, gives the bindings of [l] over the table before. *)
Lemma foldl_insert_union {A : Type} (l : list (string * A)) (m : gmap string A) :
  NoDup (l.*1) →
  foldl (fun acc kv => <[fst kv := snd kv]> acc) m l = list_to_map l ∪ m.
Proof.
  revert m. induction l as [|[k v] l IH]; intros m; simpl.
  { intros _. by rewrite (left_id_L ∅ union). }
  intros [Hk Hl]%NoDup_cons. rewrite (IH _ Hl).
  rewrite <- insert_union_l. symmetry. apply insert_union_r.
  by apply not_elem_of_list_to_map_1.
Qed.

Lemma list_to_map_covers {A B : Type} (m : gmap string A) (l' : list (string * B))
    (m' : gmap string B) :
  l'.*1 = (map_to_list m).*1 → m' = list_to_map l' →
  ∀ k, is_Some (m !! k) ↔ is_Some (m' !! k).
Proof.
  intros Hkeys -> k.
  rewrite <- !elem_of_dom, dom_list_to_map_L, Hkeys.
  rewrite elem_of_list_to_set, elem_of_dom.
  split.
  - intros [v Hv]. apply list_elem_of_fmap. exists (k, v). split; [done|].
    by apply elem_of_map_to_list.
  - intros ([k' v] & -> & Hin)%list_elem_of_fmap. apply elem_of_map_to_list in Hin.
    by exists v.
Qed.


Lemma resolve_link_in_place_eq (k v : string) (st : State) :
  resolve_link_in_place (k, v) st
  = match replacePlaceholder (this st) v with
    | Ok r =>
        (Ok tt,
         mkState
           (set_config
              (set_linkModules (<[k := r]> (linkModules (config (this st)))) (config (this st)))
              (this st))
           (world st))
    | Throw e => (Throw e, st)
    end.
Proof.
  unfold resolve_link_in_place, mbind, M_bind, bind, get_state, lift. simpl.
  by destruct (replacePlaceholder (this st) v).
Qed.

(** The loop of [loadConfig] over [linkModules]: it assigns, one entry
    after the other, the resolved value under the same key. *)
Lemma link_loop (t : Sandbox) (l : list (string * string)) (st : State) :
  projectPath (this st) = projectPath t → scenarioPath (this st) = scenarioPath t →
  match map_result (resolve_link t) l with
  | Ok l' =>
      for_each resolve_link_in_place l st
      = (Ok tt,
         mkState
           (set_config
              (set_linkModules
                 (foldl (fun acc kv => <[fst kv := snd kv]> acc)
                    (linkModules (config (this st))) l')
                 (config (this st)))
              (this st))
           (world st))
  | Throw e => fst (for_each resolve_link_in_place l st) = Throw e
  end.
Proof.
  revert st. induction l as [|[k v] l IH]; intros st Hp Hs; simpl.
  { by destruct st as [[? ? ? ? ? [] ?] ?]. }
  pose proof (resolve_link_in_place_eq k v st) as Hbody.
  rewrite (replacePlaceholder_paths t (this st) v Hp Hs) in Hbody.
  change (resolve_link t (k, v)) with (r ← replacePlaceholder t v; Ok (k, r)).
  destruct (replacePlaceholder t v) as [r|e]; simpl.
  - match type of Hbody with _ = (_, ?st1) => specialize (IH st1 Hp Hs) end.
    destruct (map_result (resolve_link t) l) as [l'|e]; simpl.
    + rewrite (bind_ok _ _ _ _ _ Hbody), IH. by destruct st as [[? ? ? ? ? [] ?] ?].
    + by rewrite (bind_ok _ _ _ _ _ Hbody).
  - by rewrite (bind_throw _ _ _ _ _ Hbody).
Qed.

Lemma list_to_map_union_id (m : gmap string string) (l' : list (string * string)) :
  l'.*1 = (map_to_list m).*1 → list_to_map l' ∪ m = list_to_map l'.
Proof.
  intros Hkeys. apply map_eq. intros k. rewrite lookup_union.
  destruct (list_to_map l' !! k) as [v'|] eqn:Hk; simpl.
  - by destruct (m !! k).
  - rewrite (left_id_L None union).
    destruct (m !! k) as [v|] eqn:Hm; [|done].
    destruct (proj1 (list_to_map_covers m l' (list_to_map l') Hkeys eq_refl k)) as [v' Hv'].
    { by exists v. }
    congruence.
Qed.

Section LoadConfig.
Context `{Host}.

Lemma bind_update_config {B : Type} (f : Config → Config) (k : unit → M B) (st : State) :
  (x ← update_config f; k x) st
  = k tt (mkState (set_config (f (config (this st))) (this st)) (world st)).
Proof. reflexivity. Qed.

Lemma loadConfig_read (st : State) (content : json) (file : ConfigFile) :
  files (world st) !! path_resolve [scenarioPath (this st); configFileName (this st)]
  = Some (JsonFile content) →
  as_Config content = Ok file →
  match resolve_config (this st) (merge_config (config (this st)) file) with
  | Ok c => loadConfig st = (Ok tt, mkState (set_config c (this st)) (world st))
  | Throw e => fst (loadConfig st) = Throw e
  end.
Proof.
  intros Hfile Hdecode. unfold loadConfig, resolve_config.
  set (merged := merge_config (config (this st)) file).
  rewrite bind_get_state.
  rewrite (bind_ok (readJson _) _ st st content) by by rewrite readJson_eq, Hfile.
  rewrite bind_lift, Hdecode, bind_update_this, bind_get_state. simpl this.
  fold merged. clearbody merged.
  rewrite (map_result_ext (replacePlaceholder (set_config merged (this st)))
             (replacePlaceholder (this st)))
    by (intros s; apply replacePlaceholder_set_config).
  change (copyFiles (config (set_config merged (this st)))) with (copyFiles merged).
  rewrite bind_lift.
  destruct (map_result (replacePlaceholder (this st)) (copyFiles merged)) as [copied|e];
    simpl; [|done].
  rewrite bind_update_config, bind_get_state. simpl this.
  rewrite (map_result_ext (replacePlaceholder (set_config _ _))
             (replacePlaceholder (this st)))
    by (intros s; rewrite !replacePlaceholder_set_config; done).
  change (alliageModules (config (set_config _ _))) with (alliageModules merged).
  rewrite bind_lift.
  destruct (map_result (replacePlaceholder (this st)) (alliageModules merged))
    as [modules|e]; simpl; [|done].
  rewrite bind_update_config, bind_get_state. simpl this.
  change (linkModules (config (set_config _ _))) with (linkModules merged).
  match goal with
  | |- context [mbind _ (for_each resolve_link_in_place ?l) ?s] =>
      pose proof (link_loop (this st) l s eq_refl eq_refl) as Hloop
  end.
  destruct (map_result (resolve_link (this st)) (map_to_list (linkModules merged)))
    as [links|e] eqn:Hl.
  2:{ match goal with
      | |- context [mbind _ (for_each resolve_link_in_place ?l) ?s] =>
          destruct (for_each resolve_link_in_place l s) as [r st'] eqn:Hfor
      end.
      simpl in Hloop. subst r. by rewrite (bind_throw _ _ _ st' e Hfor). }
  rewrite (bind_ok _ _ _ _ _ Hloop). clear Hloop. simpl.
  rewrite foldl_insert_union.
  2:{ rewrite (map_result_keys _ _ _ Hl). apply NoDup_fst_map_to_list. }
  rewrite list_to_map_union_id by apply (map_result_keys _ _ _ Hl).
  rewrite bind_get_state. simpl this.
  rewrite !replacePlaceholder_set_config.
  change (command (config (set_config _ _))) with (command merged).
  rewrite bind_lift.
  destruct (replacePlaceholder (this st) (command merged)) as [cmd|e]; simpl; [|done].
  by destruct st as [[] ?].
Qed.

End LoadConfig.


Lemma loadConfig_unreadable `{Host} (st : State) :
  let configPath := path_resolve [scenarioPath (this st); configFileName (this st)] in
  (∀ content, files (world st) !! configPath ≠ Some (JsonFile content)) →
  loadConfig st = (Throw (IOError configPath), st).
Proof.
  intros configPath Hfile. unfold loadConfig. rewrite bind_get_state.
  apply bind_throw. rewrite readJson_eq. fold configPath.
  destruct (files (world st) !! configPath) as [[content|]|] eqn:Hnode; try done.
  by destruct (Hfile content).
Qed.




(** * Further properties of the code *)

(** ** The pattern of local modules *)





(** ** Placeholder resolution, text and tokens *)

(** X2. A string without an opening angle bracket, the empty string
    included, is returned as it is. *)
Theorem replacePlaceholder_without_bracket (this : Sandbox) (s : string) :
  Str.has_char "<"%char s = false → replacePlaceholder this s = Ok s.
Proof.
  intros Hs. rewrite <- (app_empty_r s) at 1.
  rewrite replacePlaceholder_text by done. simpl. by rewrite app_empty_r.
Qed.

Lemma replacePlaceholder_without_bracket_witness :
  Str.has_char "<"%char "path/to/project > dist" = false
  ∧ replacePlaceholder test_sandbox "path/to/project > dist" = Ok "path/to/project > dist".
Proof.
  split; [reflexivity|].
  apply (replacePlaceholder_without_bracket test_sandbox "path/to/project > dist").
  reflexivity.
Defined.

(** X3. Resolution goes through the string from left to right: text without
    an opening bracket is copied, a token made of letters is given to the
    table of placeholders, and what follows the token is resolved on its
    own.  The two names of the class give the project path and the scenario
    path, whatever these contain; a name that is neither one of them nor an
    inherited one gives the token back. *)
Theorem replacePlaceholder_decompose (this : Sandbox) (pre name post : string) :
  Str.has_char "<"%char pre = false → name ≠ "" → all_letters name = true →
  replacePlaceholder this (pre +:+ "<" +:+ name +:+ ">" +:+ post)
  = (v ← (if decide (name = "projectRoot") then Ok (projectPath this)
          else if decide (name = "scenarioRoot") then Ok (scenarioPath this)
          else if bool_decide (name ∈ Object_prototype_methods)
               then call_mapper this (InheritedMethod name)
               else Ok ("<" +:+ name +:+ ">"));
     rest ← replacePlaceholder this post;
     Ok (pre +:+ v +:+ rest)).
Proof.
  intros Hpre Hne Hname.
  rewrite replacePlaceholder_text by done.
  rewrite replacePlaceholder_token by done.
  unfold replacer, placeholdersMapping_get.
  change (PLACEHOLDERS_value PROJECT_ROOT) with "projectRoot".
  change (PLACEHOLDERS_value SCENARIO_ROOT) with "scenarioRoot".
  destruct (decide (name = "projectRoot")) as [->|Hproject].
  { by destruct (replacePlaceholder this post). }
  destruct (decide (name = "scenarioRoot")) as [->|Hscenario].
  { by destruct (replacePlaceholder this post). }
  destruct (bool_decide (name ∈ Object_prototype_methods)).
  - destruct (call_mapper this (InheritedMethod name)) as [v|e]; [|done].
    by destruct (replacePlaceholder this post).
  - destruct (replacePlaceholder this post) as [rest|e]; [|done].
    simpl. by rewrite !app_assoc_string.
Qed.

Lemma replacePlaceholder_decompose_witness :
  Str.has_char "<"%char "--root=" = false
  ∧ replacePlaceholder test_sandbox "--root=<projectRoot>/<other>/dist"
    = Ok "--root=/work/path/to/project/<other>/dist".
Proof.
  split; [reflexivity|].
  assert ("projectRoot" ≠ "") as Hname by discriminate.
  exact (replacePlaceholder_decompose test_sandbox "--root=" "projectRoot" "/<other>/dist"
           eq_refl Hname eq_refl).
Defined.

(** ** When resolution throws *)

Lemma prefix_app (a b : string) : String.prefix a (a +:+ b) = true.
Proof.
  induction a as [|c a IH]; [by destruct b|].
  rewrite app_cons. simpl. by destruct (ascii_dec c c).
Qed.

Lemma prefix_inv (t s : string) :
  String.prefix t s = true → ∃ rest, s = t +:+ rest.
Proof.
  revert s. induction t as [|c t IH]; intros s.
  { intros _. by exists s. }
  destruct s as [|d s]; simpl; [done|].
  destruct (ascii_dec c d) as [->|]; [|done].
  intros [rest ->]%IH. by exists rest.
Qed.

Lemma span_letters_spec (r a b : string) :
  Str.span_letters r = (a, b) → r = a +:+ b ∧ all_letters a = true.
Proof.
  revert a b. induction r as [|c r IH]; intros a b; simpl.
  { by intros [= <- <-]. }
  destruct (Str.is_letter c) eqn:Hc.
  - destruct (Str.span_letters r) as [a' b'] eqn:Hr. intros [= <- <-].
    destruct (IH a' b' eq_refl) as [-> Ha']. simpl. by rewrite Hc, Ha'.
  - by intros [= <- <-].
Qed.

Lemma match_placeholder_inv (s name rest : string) :
  match_placeholder s = Some (name, rest) →
  s = "<" +:+ name +:+ ">" +:+ rest ∧ name ≠ "" ∧ all_letters name = true.
Proof.
  destruct s as [|c r]; [done|].
  destruct (decide (c = "<"%char)) as [->|Hc].
  2:{ by rewrite match_placeholder_other. }
  unfold match_placeholder.
  destruct (Str.span_letters r) as [a b] eqn:Hspan.
  apply span_letters_spec in Hspan as [-> Ha].
  destruct a as [|c1 a]; [done|]. destruct b as [|c2 b]; [done|].
  destruct c2 as [[] [] [] [] [] [] [] []]; try done.
  intros [= <- <-]. done.
Qed.

Lemma all_letters_no_bracket (s : string) :
  all_letters s = true → Str.has_char "<"%char s = false.
Proof.
  induction s as [|c s IH]; [done|]. simpl.
  intros [Hc Hs]%andb_true_iff. case_decide as Heq; [by subst|]. by apply IH.
Qed.

Lemma has_infix_cons (t : string) (c : ascii) (r : string) :
  Str.has_infix t (String c r) = String.prefix t (String c r) || Str.has_infix t r.
Proof. reflexivity. Qed.

Lemma no_throwing_token_cons (c : ascii) (r : string) :
  no_throwing_token (String c r) = true → no_throwing_token r = true.
Proof.
  unfold no_throwing_token, throwing_tokens. cbn [forallb].
  rewrite !has_infix_cons, !andb_true_iff, !negb_true_iff, !orb_false_iff.
  intros ([_ H1] & [_ H2] & [_ H3] & [_ H4] & _). done.
Qed.

(** A token at the start of a string without throwing token does not
    throw. *)
Lemma replacer_no_throwing_token (this : Sandbox) (name rest : string) :
  no_throwing_token ("<" +:+ name +:+ ">" +:+ rest) = true →
  is_ok (replacer this ("<" +:+ name +:+ ">") name) = true.
Proof.
  intros Hno. unfold replacer, placeholdersMapping_get.
  repeat case_decide; try done.
  case_bool_decide as Hin; [|done].
  unfold Object_prototype_methods in Hin.
  assert (Str.has_infix ("<" +:+ name +:+ ">") ("<" +:+ name +:+ ">" +:+ rest) = true) as Hinfix.
  { change ("<" +:+ name +:+ ">" +:+ rest) with (String "<"%char (name +:+ ">" +:+ rest)).
    rewrite has_infix_cons.
    change (String "<"%char (name +:+ ">" +:+ rest)) with ("<" +:+ name +:+ ">" +:+ rest).
    replace ("<" +:+ name +:+ ">" +:+ rest) with (("<" +:+ name +:+ ">") +:+ rest)
      by (by rewrite !app_assoc_string).
    by rewrite prefix_app. }
  unfold no_throwing_token, throwing_tokens in Hno. cbn [forallb] in Hno.
  rewrite !andb_true_iff, !negb_true_iff in Hno.
  destruct Hno as (Ht1 & Ht2 & Ht3 & Ht4 & _).
  rewrite !elem_of_cons in Hin. rewrite elem_of_nil in Hin.
  destruct Hin as [->|[->|[->|[->|[->|[->|[->|[]]]]]]]]; try done; exfalso;
    first [ exact (eq_true_false_abs _ Hinfix Ht1)
          | exact (eq_true_false_abs _ Hinfix Ht2)
          | exact (eq_true_false_abs _ Hinfix Ht3)
          | exact (eq_true_false_abs _ Hinfix Ht4) ].
Qed.

Lemma replace_from_no_throwing_token (this : Sandbox) (s : string) (skip : nat) :
  no_throwing_token s = true → is_ok (replace_from this skip s) = true.
Proof.
  revert skip. induction s as [|c r IH]; intros skip Hno; [done|].
  pose proof (no_throwing_token_cons c r Hno) as Hr.
  destruct skip as [|k]; [|by apply IH].
  rewrite replace_from_search.
  destruct (match_placeholder (String c r)) as [[name rest]|] eqn:Hmatch.
  - apply match_placeholder_inv in Hmatch as (Hs & _ & _).
    rewrite Hs in Hno. apply (replacer_no_throwing_token this) in Hno.
    destruct (replacer this _ name) as [v|e]; [|done]. simpl.
    specialize (IH (S (String.length name)) Hr).
    by destruct (replace_from this _ r).
  - specialize (IH 0 Hr). by destruct (replace_from this 0 r).
Qed.

Lemma length_app_string (a b : string) :
  String.length (a +:+ b) = String.length a + String.length b.
Proof. induction a as [|c a IH]; [done|]. rewrite app_cons. simpl. by rewrite IH. Qed.

Lemma has_char_app (c : ascii) (a b : string) :
  Str.has_char c (a +:+ b) = Str.has_char c a || Str.has_char c b.
Proof.
  induction a as [|d a IH]; [done|]. rewrite app_cons. simpl. by case_decide.
Qed.

(** Each throwing token is an opening bracket, a name of letters that the
    callback throws on, and a closing bracket. *)
Lemma throwing_token_name (t : string) :
  t ∈ throwing_tokens →
  ∃ name, t = "<" +:+ name +:+ ">" ∧ name ≠ "" ∧ all_letters name = true
          ∧ ∀ this placeholder, is_ok (replacer this placeholder name) = false.
Proof.
  unfold throwing_tokens. rewrite !elem_of_cons, elem_of_nil.
  intros [->|[->|[->|[->|[]]]]].
  - by exists "hasOwnProperty".
  - by exists "propertyIsEnumerable".
  - by exists "toLocaleString".
  - by exists "valueOf".
Qed.

(** Two tokens that start at the same place have the same name. *)
Lemma token_prefix_name (t_name name rest : string) :
  all_letters t_name = true → all_letters name = true →
  String.prefix ("<" +:+ t_name +:+ ">") ("<" +:+ name +:+ ">" +:+ rest) = true →
  t_name = name.
Proof.
  intros Ht Hname [rest' Heq]%prefix_inv.
  rewrite !app_assoc_string in Heq.
  change ("<" +:+ name +:+ ">" +:+ rest) with (String "<"%char (name +:+ String ">"%char rest))
    in Heq.
  change ("<" +:+ t_name +:+ ">" +:+ rest')
    with (String "<"%char (t_name +:+ String ">"%char rest')) in Heq.
  injection Heq as Heq.
  pose proof (span_letters_token name rest Hname) as H1.
  pose proof (span_letters_token t_name rest' Ht) as H2.
  rewrite Heq in H1. congruence.
Qed.

(** A throwing token anywhere after the characters still to pass over
    makes the resolution throw. *)
Lemma replace_from_throwing_token (this : Sandbox) (t : string) :
  t ∈ throwing_tokens →
  ∀ s skip a b,
    s = a +:+ b → String.length a = skip → Str.has_char "<"%char a = false →
    Str.has_infix t s = true →
    is_ok (replace_from this skip s) = false.
Proof.
  intros (t_name & -> & Hne & Hletters & Hthrows)%throwing_token_name.
  induction s as [|c r IH]; intros skip a b Hs Hlen Ha Hinfix; [done|].
  rewrite has_infix_cons in Hinfix.
  destruct skip as [|k].
  - destruct a as [|? ?]; [|done]. rewrite app_empty_l in Hs. subst b.
    rewrite replace_from_search.
    destruct (match_placeholder (String c r)) as [[name rest]|] eqn:Hmatch.
    + apply match_placeholder_inv in Hmatch as (Hs & Hname_ne & Hname).
      destruct (replacer this _ name) as [v|e] eqn:Hv; [|done]. simpl.
      assert (Str.has_infix ("<" +:+ t_name +:+ ">") r = true) as Hr.
      { destruct (String.prefix _ (String c r)) eqn:Hprefix; [|done].
        rewrite Hs in Hprefix.
        apply token_prefix_name in Hprefix as <-; [|done..].
        pose proof (Hthrows this ("<" +:+ t_name +:+ ">")) as Hthrow.
        by rewrite Hv in Hthrow. }
      change ("<" +:+ name +:+ ">" +:+ rest) with (String "<"%char (name +:+ ">" +:+ rest))
        in Hs.
      injection Hs as -> ->.
      assert (is_ok (replace_from this (S (String.length name)) (name +:+ ">" +:+ rest))
              = false) as Hthrow.
      { apply (IH (S (String.length name)) (name +:+ ">") rest); [| | |done].
        - by rewrite app_assoc_string.
        - rewrite length_app_string. simpl. lia.
        - rewrite has_char_app, all_letters_no_bracket by done. done. }
      by destruct (replace_from this _ (name +:+ ">" +:+ rest)).
    + assert (Str.has_infix ("<" +:+ t_name +:+ ">") r = true) as Hr.
      { destruct (String.prefix _ (String c r)) eqn:Hprefix; [|done].
        apply prefix_inv in Hprefix as [rest Hs]. rewrite !app_assoc_string in Hs.
        rewrite Hs, match_placeholder_token in Hmatch; done. }
      specialize (IH 0 "" r eq_refl eq_refl eq_refl Hr).
      by destruct (replace_from this 0 r).
  - destruct a as [|c' a]; [done|]. rewrite app_cons in Hs.
    injection Hs as -> ->. simpl in Hlen, Ha. case_decide as Hc; [done|].
    simpl. apply (IH k a b); [done|lia|done|].
    destruct (String.prefix _ (String c' (a +:+ b))) eqn:Hprefix; [|done].
    exfalso. apply Hc.
    change ("<" +:+ t_name +:+ ">") with (String "<"%char (t_name +:+ ">")) in Hprefix.
    cbn [String.prefix] in Hprefix. by destruct (ascii_dec "<"%char c').
Qed.

(** X4. Resolution throws exactly when the string contains one of the four
    tokens [<hasOwnProperty>], [<propertyIsEnumerable>], [<toLocaleString>]
    and [<valueOf>]; on every other string it returns. *)
Theorem replacePlaceholder_returns (this : Sandbox) (s : string) :
  is_ok (replacePlaceholder this s) = no_throwing_token s.
Proof.
  destruct (no_throwing_token s) eqn:Hno.
  { by apply replace_from_no_throwing_token. }
  unfold no_throwing_token in Hno.
  assert (∃ t, t ∈ throwing_tokens ∧ Str.has_infix t s = true) as (t & Ht & Hinfix).
  { induction throwing_tokens as [|t ts IH]; [done|]. simpl in Hno.
    apply andb_false_iff in Hno as [Hno|Hno].
    - exists t. split; [by left|]. by apply negb_false_iff.
    - destruct (IH Hno) as (t' & Ht' & Hinfix). exists t'. split; [by right|done]. }
  by apply (replace_from_throwing_token this t Ht s 0 "" s).
Qed.

(** ** What the methods never do to the world *)

Section Outside.
Context (R : State → State → Prop) `{!PreOrder R}.

(** [R] only looks at the world. *)
Hypothesis R_this : ∀ t t' w, R (mkState t w) (mkState t' w).

Lemma outside_update_this (f : Sandbox → Sandbox) : preserves R (update_this f).
Proof. intros [t w]. apply R_this. Qed.

Context `{Host}.

Lemma outside_loadConfig : preserves R loadConfig.
Proof. apply preserves_loadConfig; [apply _|]. intros t w c. apply R_this. Qed.

(** In the world, [R] does not look at the spawned commands. *)
Hypothesis R_spawned :
  ∀ t w l, R (mkState t w)
             (mkState t (mkWorld (files w) (process_env w) (pending_removals w) l)).

Lemma outside_runCommand cmd args options : preserves R (runCommand cmd args options).
Proof.
  intros st. destruct (isInitialized (this st)) eqn:Hflag.
  - rewrite runCommand_initialized by done. destruct st as [t w]. apply R_spawned.
  - by rewrite runCommand_not_initialized.
Qed.

End Outside.

Section OutsideFiles.
Context (R : State → State → Prop) `{!PreOrder R}.
Context `{Host}.

Hypothesis R_this : ∀ t t' w, R (mkState t w) (mkState t' w).

(** In the world, [R] does not look at the files. *)
Hypothesis R_files : ∀ t w f, R (mkState t w) (mkState t (set_files f w)).

Lemma outside_fs_call op : preserves R (fs_call op).
Proof.
  apply preserves_bind; [apply _|apply preserves_get_state; apply _|]. intros st.
  apply preserves_bind; [apply _|apply preserves_lift; apply _|]. intros fs.
  intros [t w]. apply R_files.
Qed.

Lemma outside_generateModulesDefinition : preserves R generateModulesDefinition.
Proof.
  intros st. rewrite generateModulesDefinition_eq. simpl.
  destruct (fold_result _ _ _) as [loaded|e]; [|done].
  destruct (existing_manifest _ _) as [pre|e]; [|done].
  destruct st as [t w]. apply R_files.
Qed.

(** What [init] does once [clear] has returned. *)
Lemma outside_init_after_clear (st : State) :
  R st (snd ((st1 ← get_state;
              fs_call (fs_mkdirp (sandboxPath (this st1)));;
              loadConfig;;
              st2 ← get_state;
              for_each fs_call (provisioning (this st2));;
              generateModulesDefinition;;
              update_this (set_isInitialized true)) st)).
Proof.
  revert st. change (preserves R (st1 ← get_state;
              fs_call (fs_mkdirp (sandboxPath (this st1)));;
              loadConfig;;
              st2 ← get_state;
              for_each fs_call (provisioning (this st2));;
              generateModulesDefinition;;
              update_this (set_isInitialized true))).
  apply preserves_bind; [apply _|apply preserves_get_state; apply _|]. intros st1.
  apply preserves_bind; [apply _|apply outside_fs_call|]. intros _.
  apply preserves_bind; [apply _|by apply outside_loadConfig|]. intros _.
  apply preserves_bind; [apply _|apply preserves_get_state; apply _|]. intros st2.
  apply preserves_bind; [apply _| |].
  { apply preserves_for_each; [apply _|]. intros op. apply outside_fs_call. }
  intros _.
  apply preserves_bind; [apply _|apply outside_generateModulesDefinition|]. intros _.
  by apply outside_update_this.
Qed.

(** Nor at the removals in flight. *)
Hypothesis R_pending :
  ∀ t w l, R (mkState t w) (mkState t (mkWorld (files w) (process_env w) l (spawned w))).

Lemma outside_clear : preserves R clear.
Proof.
  intros st. rewrite clear_eq. simpl. destruct st as [t w]. simpl.
  etrans; [apply (R_pending t w (sandboxPath t :: pending_removals w))|]. apply R_this.
Qed.

Lemma outside_init : preserves R init.
Proof.
  intros st. unfold init. rewrite (bind_ok _ _ _ _ _ (clear_eq st)).
  etrans; [|apply outside_init_after_clear].
  pose proof (outside_clear st) as Hclear. by rewrite clear_eq in Hclear.
Qed.

End OutsideFiles.

Global Instance same_env_preorder : PreOrder same_env.
Proof.
  split.
  - intros st. by unfold same_env.
  - intros st1 st2 st3 Ha Hb. unfold same_env in *. by rewrite Hb.
Qed.

Global Instance same_spawned_preorder : PreOrder same_spawned.
Proof.
  split.
  - intros st. by unfold same_spawned.
  - intros st1 st2 st3 Ha Hb. unfold same_spawned in *. by rewrite Hb.
Qed.

Global Instance same_pending_preorder : PreOrder same_pending.
Proof.
  split.
  - intros st. by unfold same_pending.
  - intros st1 st2 st3 Ha Hb. unfold same_pending in *. by rewrite Hb.
Qed.

Global Instance same_files_preorder : PreOrder same_files.
Proof.
  split.
  - intros st. by unfold same_files.
  - intros st1 st2 st3 Ha Hb. unfold same_files in *. by rewrite Hb.
Qed.

Global Instance same_config_preorder : PreOrder same_config.
Proof.
  split.
  - intros st. by unfold same_config.
  - intros st1 st2 st3 Ha Hb. unfold same_config in *. by rewrite Hb.
Qed.

Global Instance same_object_preorder : PreOrder same_object.
Proof.
  split.
  - intros st. by unfold same_object.
  - intros st1 st2 st3 Ha Hb. unfold same_object in *. by rewrite Hb.
Qed.

Lemma after_calls_cons `{Host} (c : call) (cs : list call) (st : State) :
  after_calls (c :: cs) st = after_calls cs (after_call c st).
Proof. reflexivity. Qed.

(** X5. No sequence of calls of the public methods changes the
    environment of the parent process: the variables a command gets are
    put in a copy. *)
Theorem process_env_never_changes `{Host} (cs : list call) (st : State) :
  process_env (world (after_calls cs st)) = process_env (world st).
Proof.
  revert st. induction cs as [|c cs IH]; intros st; [done|].
  rewrite after_calls_cons, IH.
  destruct c as [| | |cmd args options]; simpl.
  - by apply (outside_init same_env).
  - by apply (outside_clear same_env).
  - by apply (preserves_getConfig same_env).
  - rewrite method_of_runCommand. by apply (outside_runCommand same_env).
Qed.

(** X6. [init], [clear] and [getConfig] never start a process: after any
    sequence of them, returning or throwing, the spawned commands are the
    ones there were. *)
Theorem lifecycle_never_spawns `{Host} (cs : list call) (st : State) :
  forallb (fun c => negb (is_command c)) cs = true →
  spawned (world (after_calls cs st)) = spawned (world st).
Proof.
  revert st. induction cs as [|c cs IH]; intros st; [done|].
  cbn [forallb]. intros [Hc Hcs]%andb_true_iff.
  rewrite after_calls_cons, IH by done.
  destruct c as [| | |cmd args options]; simpl; [| | |done].
  - by apply (outside_init same_spawned).
  - by apply (outside_clear same_spawned).
  - by apply (preserves_getConfig same_spawned).
Qed.

Lemma lifecycle_never_spawns_witness :
  spawned (world (@after_calls (test_host true)
                    [CallGetConfig; CallInit; CallGetConfig; CallClear; CallInit]
                    test_state))
  = [].
Proof.
  exact (@lifecycle_never_spawns (test_host true)
           [CallGetConfig; CallInit; CallGetConfig; CallClear; CallInit]
           test_state eq_refl).
Defined.

(** X7. [getConfig] and the three command methods change neither the
    object nor the files, and start no removal, whether they return or
    throw. *)
Theorem commands_touch_nothing `{Host} (cs : list call) (st : State) :
  forallb (fun c => negb (starts_removal c)) cs = true →
  this (after_calls cs st) = this st
  ∧ files (world (after_calls cs st)) = files (world st)
  ∧ pending_removals (world (after_calls cs st)) = pending_removals (world st).
Proof.
  revert st. induction cs as [|c cs IH]; intros st; [done|].
  cbn [forallb]. intros [Hc Hcs]%andb_true_iff.
  rewrite after_calls_cons.
  destruct (IH (after_call c st) Hcs) as (-> & -> & ->).
  destruct c as [| | |cmd args options]; simpl; [done|done| |].
  - split; [|split].
    + by apply (preserves_getConfig same_object).
    + by apply (preserves_getConfig same_files).
    + by apply (preserves_getConfig same_pending).
  - rewrite method_of_runCommand. split; [|split].
    + by apply (preserves_runCommand same_object).
    + by apply (outside_runCommand same_files).
    + by apply (outside_runCommand same_pending).
Qed.

Lemma commands_touch_nothing_witness :
  let cs := [CallGetConfig; CallCommand RUN ["main"] (mkCommandOptions None);
             CallCommand BUILD [] (mkCommandOptions None)] in
  this (@after_calls (test_host true) cs (test_initialized true))
  = this (test_initialized true)
  ∧ files (world (@after_calls (test_host true) cs (test_initialized true)))
    = files (world (test_initialized true)).
Proof.
  intros cs.
  destruct (@commands_touch_nothing (test_host true) cs (test_initialized true) eq_refl)
    as (Hthis & Hfiles & _).
  by split.
Defined.

(** ** Removals and spawns, call after call *)

Lemma init_pending `{Host} (st : State) :
  pending_removals (world (snd (init st)))
  = sandboxPath (this st) :: pending_removals (world st).
Proof.
  unfold init. rewrite (bind_ok _ _ _ _ _ (clear_eq st)).
  by rewrite (outside_init_after_clear same_pending).
Qed.

Lemma replicate_snoc_app {A : Type} (n : nat) (x : A) (l : list A) :
  replicate n x ++ x :: l = x :: replicate n x ++ l.
Proof. induction n as [|n IH]; [done|]. simpl. by rewrite IH. Qed.

(** X8. Every call of [init] or [clear] starts one removal, of the
    sandbox directory of the object, whether the call returns or throws;
    no other call starts one.  After a sequence of calls the removals in
    flight are as many copies of the sandbox path as there were calls of
    [init] and [clear], before the ones there were. *)
Theorem removals_started `{Host} (cs : list call) (st : State) :
  pending_removals (world (after_calls cs st))
  = replicate (length (List.filter starts_removal cs)) (sandboxPath (this st))
    ++ pending_removals (world st).
Proof.
  revert st. induction cs as [|c cs IH]; intros st; [done|].
  rewrite after_calls_cons, IH.
  destruct (preserves_after_call same_paths same_paths_world same_paths_config
              same_paths_flag c st) as (-> & _).
  destruct c as [| | |cmd args options]; simpl.
  - by rewrite init_pending, replicate_snoc_app.
  - by rewrite replicate_snoc_app.
  - by rewrite (preserves_getConfig same_pending).
  - rewrite method_of_runCommand. by rewrite (outside_runCommand same_pending).
Qed.

Lemma spawn_of_record_spawn `{Host} cmd args options (s : Spawn) (st : State) :
  spawn_of cmd args options (record_spawn s st) = spawn_of cmd args options st.
Proof. reflexivity. Qed.

(** X9. Commands compose.  On an initialized sandbox a sequence of calls
    of [install], [build] and [run] spawns one process per call, each with
    the command line, environment and working directory it would have got
    as the first call: a command changes nothing that a later command
    reads. *)
Theorem commands_compose `{Host} (cs : list (COMMAND * list string * CommandOptions))
    (st : State) :
  isInitialized (this st) = true →
  after_calls (command_call <$> cs) st
  = mkState (this st)
      (mkWorld (files (world st)) (process_env (world st)) (pending_removals (world st))
         (rev ((fun c => spawn_of c.1.1 c.1.2 c.2 st) <$> cs) ++ spawned (world st))).
Proof.
  intros Hflag.
  assert (∀ log st',
            this st' = this st → files (world st') = files (world st) →
            process_env (world st') = process_env (world st) →
            pending_removals (world st') = pending_removals (world st) →
            spawned (world st') = log →
            after_calls (command_call <$> cs) st'
            = mkState (this st)
                (mkWorld (files (world st)) (process_env (world st))
                   (pending_removals (world st))
                   (rev ((fun c => spawn_of c.1.1 c.1.2 c.2 st) <$> cs) ++ log))) as Hgen.
  { induction cs as [|[[cmd args] options] cs IH]; intros log st' Ht Hf He Hp Hs.
    { destruct st' as [t' [f' e' p' s']]. simpl in *. by subst. }
    rewrite fmap_cons, after_calls_cons. simpl after_call.
    rewrite method_of_runCommand, runCommand_initialized by by rewrite Ht.
    rewrite (IH (spawn_of cmd args options st :: log)); simpl; try done.
    - by rewrite <- app_assoc.
    - rewrite Hs. f_equal. unfold spawn_of, command_env, nodePath_of, systemPath_of,
        computeNodePath, inherited_entries. by rewrite Ht, He. }
  by apply Hgen.
Qed.

Lemma commands_compose_witness :
  isInitialized (this (test_initialized true)) = true
  ∧ spawn_cwd <$> spawned (world (@after_calls (test_host true)
                                    (command_call <$> [(INSTALL, [], mkCommandOptions None);
                                                       (RUN, ["main"], mkCommandOptions None)])
                                    (test_initialized true)))
    = [test_sandbox_path; test_sandbox_path].
Proof.
  split; [vm_compute; reflexivity|].
  rewrite (@commands_compose (test_host true)
             [(INSTALL, [], mkCommandOptions None); (RUN, ["main"], mkCommandOptions None)]
             (test_initialized true)); [|vm_compute; reflexivity].
  vm_compute. reflexivity.
Defined.

(** ** What [init] leaves in the object *)

Lemma fs_call_eq (op : gmap string fnode → result (gmap string fnode)) (st : State) :
  fs_call op st
  = match op (files (world st)) with
    | Ok fs => (Ok tt, mkState (this st) (set_files fs (world st)))
    | Throw e => (Throw e, st)
    end.
Proof.
  unfold fs_call, mbind, M_bind, bind, get_state, lift. simpl.
  by destruct (op (files (world st))).
Qed.

Lemma getConfig_initialized (st : State) :
  isInitialized (this st) = true → getConfig st = (Ok (config (this st)), st).
Proof.
  intros Hflag. unfold getConfig.
  by rewrite (bind_ok _ _ _ _ _ (throwIfNotInitialized_true st Hflag)).
Qed.

Lemma resolve_config_paths (t t' : Sandbox) (c : Config) :
  projectPath t' = projectPath t → scenarioPath t' = scenarioPath t →
  resolve_config t' c = resolve_config t c.
Proof.
  intros Hp Hs. unfold resolve_config.
  rewrite (map_result_ext (replacePlaceholder t') (replacePlaceholder t) (copyFiles c))
    by (intros s; by apply replacePlaceholder_paths).
  rewrite (map_result_ext (replacePlaceholder t') (replacePlaceholder t) (alliageModules c))
    by (intros s; by apply replacePlaceholder_paths).
  rewrite (map_result_ext (resolve_link t') (resolve_link t))
    by (intros kv; unfold resolve_link; by rewrite (replacePlaceholder_paths t t')).
  by rewrite (replacePlaceholder_paths t t').
Qed.

(** What [init] does once the configuration is loaded keeps it. *)
Lemma init_after_loadConfig_config `{Host} (st : State) :
  config (this (snd ((st2 ← get_state;
                      for_each fs_call (provisioning (this st2));;
                      generateModulesDefinition;;
                      update_this (set_isInitialized true)) st)))
  = config (this st).
Proof.
  revert st.
  change (preserves same_config (st2 ← get_state;
                      for_each fs_call (provisioning (this st2));;
                      generateModulesDefinition;;
                      update_this (set_isInitialized true))).
  apply preserves_bind; [apply _|apply preserves_get_state; apply _|]. intros st2.
  apply preserves_bind; [apply _| |].
  { apply preserves_for_each; [apply _|]. intros op.
    by apply (preserves_fs_call same_config). }
  intros _.
  apply preserves_bind; [apply _| |].
  { by apply (preserves_generateModulesDefinition same_config). }
  intros _. by apply (preserves_update_this same_config).
Qed.

(** X10. The configuration [init] leaves.  Once the sandbox directory
    is made, [init] reads the configuration file of the scenario: when the
    file decodes and the placeholders of the file merged on the current
    configuration resolve, the object holds that resolved configuration
    from then on, also when a later step of [init] fails; when [init]
    returns, [getConfig] returns it and changes nothing. *)
Theorem init_config `{Host} (st : State) (fs1 : gmap string fnode) (content : json)
    (file : ConfigFile) (c : Config) :
  fs_mkdirp (sandboxPath (this st)) (files (world st)) = Ok fs1 →
  fs1 !! path_resolve [scenarioPath (this st); configFileName (this st)]
  = Some (JsonFile content) →
  as_Config content = Ok file →
  resolve_config (this st) (merge_config (config (this st)) file) = Ok c →
  config (this (snd (init st))) = c
  ∧ (is_ok (fst (init st)) = true → getConfig (snd (init st)) = (Ok c, snd (init st))).
Proof.
  intros Hmkdir Hfile Hdecode Hresolve.
  assert (config (this (snd (init st))) = c) as Hconfig.
  { unfold init. rewrite (bind_ok _ _ _ _ _ (clear_eq st)), bind_get_state.
    simpl this at 1.
    match goal with
    | |- context [mbind _ (fs_call ?op) ?s] =>
        pose proof (fs_call_eq op s) as Hcall; simpl in Hcall; rewrite Hmkdir in Hcall;
        rewrite (bind_ok _ _ _ _ _ Hcall); clear Hcall
    end.
    match goal with
    | |- context [mbind _ loadConfig ?s] =>
        pose proof (loadConfig_read s content file Hfile Hdecode) as Hload;
        rewrite (resolve_config_paths (this st)) in Hload by done;
        simpl in Hload; rewrite Hresolve in Hload;
        rewrite (bind_ok _ _ _ _ _ Hload); clear Hload
    end.
    by rewrite init_after_loadConfig_config. }
  split; [done|]. intros Hok. rewrite <- Hconfig. apply getConfig_initialized.
  by rewrite init_flag.
Qed.

Lemma init_config_witness :
  ∃ file c,
    as_Config test_config_file = Ok file
    ∧ resolve_config test_sandbox (merge_config (config test_sandbox) file) = Ok c
    ∧ config (this (snd (@init (test_host true) test_state))) = c.
Proof.
  eexists _, _. split; [vm_compute; reflexivity|]. split; [vm_compute; reflexivity|].
  refine (proj1 (@init_config (test_host true) test_state test_files test_config_file
                   _ _ _ _ _ _)).
  - reflexivity.
  - vm_compute; reflexivity.
  - vm_compute; reflexivity.
  - vm_compute; reflexivity.
Defined.

Lemma bind_ext {A B : Type} (m : M A) (k1 k2 : A → M B) (st : State) :
  (∀ a st', k1 a st' = k2 a st') → (x ← m; k1 x) st = (x ← m; k2 x) st.
Proof.
  intros Hk. unfold mbind, M_bind, bind. destruct (m st) as [[a|e] st']; [apply Hk|done].
Qed.

Lemma removal_progress_nil (root : string) (fs : gmap string fnode) :
  removal_progress root [] fs = fs.
Proof.
  unfold removal_progress. apply map_filter_id. intros p node _ [Hgone _].
  by apply elem_of_nil in Hgone.
Qed.

(** A removal makes no file appear and changes none. *)
Lemma removal_progress_lookup (root : string) (gone : list string)
    (fs : gmap string fnode) (p : string) :
  removal_progress root gone fs !! p = fs !! p
  ∨ removal_progress root gone fs !! p = None.
Proof.
  unfold removal_progress.
  destruct (filter _ fs !! p) as [node|] eqn:Hnode; [left|by right].
  by apply map_lookup_filter_Some in Hnode as [-> _].
Qed.

Lemma removal_progress_unreadable (root : string) (gone : list string)
    (fs : gmap string fnode) (p : string) :
  (∀ content, fs !! p ≠ Some (JsonFile content)) →
  ∀ content, removal_progress root gone fs !! p ≠ Some (JsonFile content).
Proof.
  intros Hfs content.
  destruct (removal_progress_lookup root gone fs p) as [-> | ->]; [apply Hfs|done].
Qed.

Lemma bind_interference {B : Type} (gone : list string) (k : unit → M B) (st : State) :
  (x ← interference gone; k x) st
  = k tt (mkState (this st)
            (set_files (removal_progress (sandboxPath (this st)) gone (files (world st)))
               (world st))).
Proof. reflexivity. Qed.

Lemma bind_interference_nil {B : Type} (k : unit → M B) (st : State) :
  (x ← interference []; k x) st = k tt st.
Proof.
  rewrite bind_interference, removal_progress_nil. by destruct st as [t []].
Qed.

(** When the removal takes nothing away while [init] runs, this is
    [init]. *)
Lemma init_beside_removal_nil `{Host} (st : State) :
  init_beside_removal [] [] [] [] st = init st.
Proof.
  unfold init_beside_removal, init.
  apply bind_ext. intros [] s1. rewrite bind_interference_nil.
  apply bind_ext. intros s1' s2.
  apply bind_ext. intros [] s3. rewrite bind_interference_nil.
  apply bind_ext. intros [] s4. rewrite bind_interference_nil.
  apply bind_ext. intros s4' s5.
  apply bind_ext. intros [] s6. by rewrite bind_interference_nil.
Qed.

(** X11. [init] on a scenario without a readable configuration file,
    whatever the removal that [clear] started has taken away by the time
    each step runs.  When [mkdirp] leaves the path of the configuration
    file alone, [init] throws: the read failure of the configuration file,
    unless [mkdirp] itself failed.  The flag is down, the configuration is
    the one the object had, no process is spawned, the environment is
    untouched, and one removal of the sandbox directory has been
    started. *)
Theorem init_unreadable_config `{Host} (st : State) (g1 g2 g3 g4 : list string) :
  let configPath := path_resolve [scenarioPath (this st); configFileName (this st)] in
  let root := sandboxPath (this st) in
  (∀ fs fs', fs_mkdirp root fs = Ok fs' → fs' !! configPath = fs !! configPath) →
  (∀ content, files (world st) !! configPath ≠ Some (JsonFile content)) →
  let after := init_beside_removal g1 g2 g3 g4 st in
  (fst after = Throw (IOError configPath)
   ∨ ∃ fs e, fs_mkdirp root fs = Throw e ∧ fst after = Throw e)
  ∧ isInitialized (this (snd after)) = false
  ∧ config (this (snd after)) = config (this st)
  ∧ process_env (world (snd after)) = process_env (world st)
  ∧ spawned (world (snd after)) = spawned (world st)
  ∧ pending_removals (world (snd after)) = root :: pending_removals (world st).
Proof.
  intros configPath root Hmkdir Hfile after.
  assert (after
          = (x ← fs_call (fs_mkdirp root);
             (interference g2;;
              loadConfig;;
              interference g3;;
              st2 ← get_state;
              for_each fs_call (provisioning (this st2));;
              interference g4;;
              generateModulesDefinition;;
              update_this (set_isInitialized true)))
              (mkState (set_isInitialized false (this st))
                 (mkWorld (removal_progress root g1 (files (world st)))
                    (process_env (world st)) (root :: pending_removals (world st))
                    (spawned (world st))))) as Hafter.
  { unfold after, init_beside_removal.
    by rewrite (bind_ok _ _ _ _ _ (clear_eq st)), bind_interference, bind_get_state. }
  clearbody after. subst after.
  match goal with
  | |- context [mbind _ (fs_call ?op) ?s] =>
      pose proof (fs_call_eq op s) as Hcall; simpl in Hcall
  end.
  destruct (fs_mkdirp root (removal_progress root g1 (files (world st))))
    as [fs'|e] eqn:Hmk.
  - rewrite (bind_ok _ _ _ _ _ Hcall), bind_interference. simpl.
    assert (∀ content,
              removal_progress root g2 fs' !! configPath ≠ Some (JsonFile content))
      as Hunreadable.
    { apply removal_progress_unreadable. intros content.
      rewrite (Hmkdir _ _ Hmk). by apply removal_progress_unreadable. }
    match goal with
    | |- context [mbind _ loadConfig ?s] =>
        rewrite (bind_throw _ _ _ _ _ (loadConfig_unreadable s Hunreadable))
    end.
    simpl. split; [by left|done].
  - rewrite (bind_throw _ _ _ _ _ Hcall). simpl. split; [|done].
    right. by eexists _, e.
Qed.

Lemma init_unreadable_config_witness :
  let after :=
    @init_beside_removal (test_host true) [] [test_manifest_path] [] [] unconfigured_state in
  fst after = Throw (IOError test_config_path)
  ∧ isInitialized (this (snd after)) = false
  ∧ pending_removals (world (snd after)) = [test_sandbox_path].
Proof.
  intros after.
  destruct (@init_unreadable_config (test_host true) unconfigured_state
              [] [test_manifest_path] [] [])
    as ([Hthrow|(fs & e & Hmk & _)] & Hflag & _ & _ & _ & Hpending).
  - by intros fs fs' [= <-].
  - intros content. vm_compute. discriminate.
  - by repeat split.
  - discriminate Hmk.
Defined.

(** ** When the manifest is written *)

Lemma map_result_is_ok {A B : Type} (f : A → result B) (xs : list A) :
  is_ok (map_result f xs) = forallb (fun x => is_ok (f x)) xs.
Proof.
  induction xs as [|x xs IH]; [done|]. simpl.
  destruct (f x) as [y|e]; simpl; [|done].
  rewrite <- IH. by destruct (map_result f xs).
Qed.

(** A value converts to a string exactly when it has a string form. *)
Lemma to_string_is_ok : ∀ v : json, is_ok (to_string v) = has_string_form v.
Proof.
  fix IH 1. intros [|b|text|str|xs|props]; simpl; try done.
  - by destruct b.
  - match goal with
    | |- is_ok (mbind _ ?m) = _ =>
        transitivity (is_ok m); [by destruct m|]
    end.
    rewrite map_result_is_ok.
    induction xs as [|x xs IHxs]; [done|]. simpl. rewrite IHxs. f_equal.
    rewrite <- (IH x). by destruct x.
  - by destruct (obj_get props "toString").
Qed.

(** The callback throws on a package manifest that is [null], on one of
    type [module] whose name has no string form, and on no other. *)
Lemma module_entry_of_is_ok (moduleName : string) (packageInfo : json) :
  is_ok (module_entry_of moduleName packageInfo) = true ↔ usable_manifest packageInfo.
Proof.
  unfold module_entry_of, usable_manifest.
  destruct packageInfo as [|b|text|str|xs|props]; simpl;
    try (split; [done|by intros [? _]]); try (split; [|done]; intros _; by split).
  destruct (obj_get props "alliageManifest") as [am|] eqn:Ham; simpl.
  2:{ split; [|done]. intros _. split; [done|]. intros ? ? ? [= <-]. by rewrite Ham. }
  destruct am as [|b|text|str|xs|manifest]; simpl;
    try (split; [|done]; intros _; split; [done|];
         intros ? ? ? [= <-] Ham'; rewrite Ham in Ham'; done).
  - destruct b; simpl;
      (split; [|done]; intros _; split; [done|];
       intros ? ? ? [= <-] Ham'; rewrite Ham in Ham'; done).
  - destruct (negb (bool_decide (text = "0"))); simpl;
      (split; [|done]; intros _; split; [done|];
       intros ? ? ? [= <-] Ham'; rewrite Ham in Ham'; done).
  - destruct (negb (bool_decide (str = ""))); simpl;
      (split; [|done]; intros _; split; [done|];
       intros ? ? ? [= <-] Ham'; rewrite Ham in Ham'; done).
  - destruct (strict_eq_str (obj_get manifest "type") "module") eqn:Hty; simpl.
    + assert (obj_get manifest "type" = Some (JStr "module")) as Hmodule.
      { unfold strict_eq_str in Hty.
        destruct (obj_get manifest "type") as [[| | |t| |]|]; try done.
        by case_bool_decide; subst. }
      unfold to_property_key.
      destruct (obj_get props "name") as [name|] eqn:Hname; simpl.
      * pose proof (to_string_is_ok name) as Hform.
        destruct (to_string name) as [key|e]; simpl in *.
        -- split; [|done]. intros _. split; [done|].
           intros ? ? ? [= <-] _ _ Hname'. rewrite Hname in Hname'. by injection Hname' as <-.
        -- split; [done|]. intros [_ Hname']. 
           rewrite (Hname' props manifest name eq_refl Ham Hmodule Hname) in Hform. done.
      * split; [|done]. intros _. split; [done|]. intros ? ? ? [= <-] _ _ Hname'. congruence.
    + split; [|done]. intros _. split; [done|].
      intros ? ? ? [= <-] Ham' Hty'. rewrite Ham in Ham'. injection Ham' as <-.
      by rewrite Hty' in Hty.
Qed.

Section ManifestWritten.
Context `{Host}.

(** Whether a callback returns does not depend on the table. *)
Lemma load_module_is_ok (st : State) (loaded : gmap string ModuleEntry) (m : string) :
  is_ok (load_module st loaded m) = true ↔ readable_module st m.
Proof.
  unfold load_module, readable_module.
  destruct (resolve_package_json st m) as [path|e]; simpl.
  2:{ split; [done|]. by intros (? & ? & ? & _). }
  rewrite readJson_eq. simpl.
  destruct (files (world st) !! path) as [[info|]|] eqn:Hfile; simpl.
  - pose proof (module_entry_of_is_ok m info) as Hentry.
    destruct (module_entry_of m info) as [r|e]; simpl in *.
    + split; [|done]. intros _. exists path, info. by rewrite <- Hentry.
    + split; [done|]. intros (? & ? & [= <-] & Hfile' & Husable).
      rewrite Hfile in Hfile'. injection Hfile' as <-. by apply Hentry in Husable.
  - split; [done|]. intros (? & ? & [= <-] & Hfile' & _). congruence.
  - split; [done|]. intros (? & ? & [= <-] & Hfile' & _). congruence.
Qed.

Lemma fold_load_module_is_ok (st : State) (l : list string) (acc : gmap string ModuleEntry) :
  is_ok (fold_result (load_module st) acc l) = true ↔ ∀ m, m ∈ l → readable_module st m.
Proof.
  revert acc. induction l as [|x l IH]; intros acc; simpl.
  { split; [|done]. intros _ m Hm. by apply elem_of_nil in Hm. }
  pose proof (load_module_is_ok st acc x) as Hx.
  destruct (load_module st acc x) as [acc'|e]; simpl in *.
  - rewrite IH. split.
    + intros Hl m [->|Hm]%elem_of_cons; [by apply Hx|by apply Hl].
    + intros Hl m Hm. apply Hl. by right.
  - split; [done|]. intros Hl. apply Hx, Hl. by left.
Qed.

(** X12. When [generateModulesDefinition] gets to its write.  The write
    being taken to succeed, it returns exactly when every declared module
    has a package manifest that is found, parses, is not [null] and, if it
    is of type [module], has a name that is absent or has a string form,
    and the manifest path of the sandbox does not hold something that
    fails to parse.  In every other case it throws before the write.  The
    table of loaded modules and the order in which the reads complete play
    no part. *)
Theorem generateModulesDefinition_returns (st : State) :
  (∀ l, completion_order l ≡ₚ l) →
  is_ok (fst (generateModulesDefinition st)) = true
  ↔ (∀ m, m ∈ alliageModules (config (this st)) → readable_module st m)
    ∧ files (world st) !! path_resolve [sandboxPath (this st); ALLIAGE_MODULES_FILE_NAME]
      ≠ Some OtherNode.
Proof.
  intros Hperm. rewrite generateModulesDefinition_eq. simpl.
  pose proof (fold_load_module_is_ok st
                (completion_order (alliageModules (config (this st)))) ∅) as Hfold.
  assert ((∀ m, m ∈ completion_order (alliageModules (config (this st)))
                → readable_module st m)
          ↔ (∀ m, m ∈ alliageModules (config (this st)) → readable_module st m)) as Hin.
  { split; intros Hl m Hm; apply Hl; [by rewrite Hperm|by rewrite <- Hperm]. }
  rewrite Hin in Hfold. clear Hin.
  destruct (fold_result _ _ _) as [loaded|e]; simpl in *.
  - unfold existing_manifest.
    destruct (files (world st) !! _) as [[content|]|]; simpl.
    + split; [|done]. intros _. split; [by apply Hfold|done].
    + split; [done|]. by intros [_ ?].
    + split; [|done]. intros _. split; [by apply Hfold|done].
  - split; [done|]. intros [Hl _]. by apply Hfold in Hl.
Qed.

(** X13. [generateModulesDefinition] writes one path and nothing else.
    Whatever it finds, it leaves the object, the environment, the spawned
    commands and the removals in flight as they were, and every file but
    the manifest of the sandbox; when it throws, it has written nothing at
    all. *)
Theorem generateModulesDefinition_writes_manifest_only (st : State) :
  let st' := snd (generateModulesDefinition st) in
  this st' = this st
  ∧ same_outside st st'
  ∧ (∀ p, p ≠ path_resolve [sandboxPath (this st); ALLIAGE_MODULES_FILE_NAME] →
          files (world st') !! p = files (world st) !! p)
  ∧ (is_ok (fst (generateModulesDefinition st)) = false → st' = st).
Proof.
  rewrite generateModulesDefinition_eq. simpl.
  destruct (fold_result _ _ _) as [loaded|e]; [|done].
  destruct (existing_manifest _ _) as [pre|e]; [|done].
  simpl. repeat split; [|done].
  intros p Hp. by rewrite lookup_insert_ne.
Qed.

Lemma fold_result_app {A B : Type} (f : B → A → result B) (acc : B) (l1 l2 : list A) :
  fold_result f acc (l1 ++ l2) = (acc' ← fold_result f acc l1; fold_result f acc' l2).
Proof.
  revert acc. induction l1 as [|x l1 IH]; intros acc; [done|]. simpl.
  destruct (f acc x) as [acc'|e]; simpl; [apply IH|done].
Qed.

(** X14. When several declared modules register the same name, the
    entry written is the one of the module whose read completes last:
    which of them that is depends on the order in which the concurrent
    reads complete, not on the order of declaration. *)
Theorem last_registration_wins (st st' : State) (l1 l2 : list string) (m k : string)
    (e : ModuleEntry) :
  completion_order (alliageModules (config (this st))) = l1 ++ m :: l2 →
  registers st m k e →
  k ≠ "__proto__" →
  (∀ m' e', m' ∈ l2 → ¬ registers st m' k e') →
  generateModulesDefinition st = (Ok tt, st') →
  ∃ written,
    files (world st') !! path_resolve [sandboxPath (this st); ALLIAGE_MODULES_FILE_NAME]
    = Some (JsonFile written)
    ∧ spread written !! k = Some (entry_to_json e).
Proof.
  intros Horder Hreg Hproto Hlater. rewrite generateModulesDefinition_eq. simpl.
  rewrite Horder, fold_result_app.
  destruct (fold_result (load_module st) ∅ l1) as [acc1|err]; simpl; [|done].
  rewrite (load_module_registers st acc1 m k e Hreg). simpl.
  destruct (fold_result _ _ l2) as [loaded|err] eqn:Hfold; [|done].
  destruct (existing_manifest _ _) as [pre|err]; [|done].
  intros [= <-]. simpl. eexists. split; [by rewrite lookup_insert_eq|].
  rewrite spread_written, merged_manifest_lookup.
  rewrite (loaded_frame st l2 _ loaded k Hfold) by (right; exact Hlater).
  rewrite object_set_lookup. by rewrite decide_True.
Qed.
End ManifestWritten.

Lemma generateModulesDefinition_returns_witness :
  (is_ok (fst (@generateModulesDefinition (test_host true) (test_initialized true))) = true
   ↔ (∀ m, m ∈ alliageModules (config (this (test_initialized true)))
           → @readable_module (test_host true) (test_initialized true) m)
     ∧ files (world (test_initialized true))
         !! @path_resolve (test_host true)
              [sandboxPath (this (test_initialized true)); ALLIAGE_MODULES_FILE_NAME]
       ≠ Some OtherNode)
  ∧ is_ok (fst (@generateModulesDefinition (test_host true) unnameable_state)) = false.
Proof.
  split.
  - apply (@generateModulesDefinition_returns (test_host true) (test_initialized true)).
    intros l. reflexivity.
  - destruct (is_ok (fst (@generateModulesDefinition (test_host true) unnameable_state)))
      eqn:Hok; [|reflexivity].
    apply (@generateModulesDefinition_returns (test_host true) unnameable_state) in Hok;
      [|intros l; reflexivity].
    destruct Hok as [Hreadable _].
    destruct (Hreadable "/unnameable") as (path & info & Hpath & Hfile & _ & Hname).
    { by left. }
    injection Hpath as <-. vm_compute in Hfile. injection Hfile as <-.
    by specialize (Hname _ _ _ eq_refl eq_refl eq_refl eq_refl).
Defined.

Lemma last_registration_wins_witness :
  (∃ written,
     files (world (snd (@generateModulesDefinition (test_host true) twins_state)))
       !! test_manifest_path = Some (JsonFile written)
     ∧ spread written !! "twin"
       = Some (entry_to_json (mkModuleEntry "/second" (Some (JArr [JStr "first"])))))
  ∧ (∃ written,
       files (world (snd (@generateModulesDefinition reversing_host twins_state)))
         !! test_manifest_path = Some (JsonFile written)
       ∧ spread written !! "twin"
         = Some (entry_to_json (mkModuleEntry "/first" (Some (JArr []))))).
Proof.
  split.
  - apply (@last_registration_wins (test_host true) twins_state _ ["/first"] [] "/second").
    + reflexivity.
    + exists "/second/package.json", second_twin. by vm_compute.
    + done.
    + intros m' e' Hm'. by apply elem_of_nil in Hm'.
    + by destruct (@generateModulesDefinition (test_host true) twins_state) as [[[]|] ?] eqn:Hgen;
        [|vm_compute in Hgen].
  - apply (@last_registration_wins reversing_host twins_state _ ["/second"] [] "/first").
    + reflexivity.
    + exists "/first/package.json", first_twin. by vm_compute.
    + done.
    + intros m' e' Hm'. by apply elem_of_nil in Hm'.
    + by destruct (@generateModulesDefinition reversing_host twins_state) as [[[]|] ?] eqn:Hgen;
        [|vm_compute in Hgen].
Defined.

(** X15. Regenerating the manifest changes nothing.  When
    [generateModulesDefinition] has returned and the package manifests of
    the declared modules load as before, a second run returns and leaves
    the state of the first: the entries are written over themselves. *)
Theorem generateModulesDefinition_idempotent `{Host} (st st' : State) :
  generateModulesDefinition st = (Ok tt, st') →
  fold_result (load_module st') ∅ (completion_order (alliageModules (config (this st'))))
  = fold_result (load_module st) ∅ (completion_order (alliageModules (config (this st)))) →
  generateModulesDefinition st' = (Ok tt, st').
Proof.
  intros Hgen Hloads. rewrite generateModulesDefinition_eq. simpl. rewrite Hloads.
  rewrite generateModulesDefinition_eq in Hgen. simpl in Hgen.
  destruct (fold_result _ _ _) as [loaded|e]; [|done].
  destruct (existing_manifest _ _) as [pre|e]; [|done].
  injection Hgen as <-. simpl.
  unfold existing_manifest. rewrite lookup_insert_eq.
  unfold merged_manifest at 1. rewrite spread_written.
  unfold merged_manifest at 1.
  rewrite (assoc_L (∪)), (idemp_L (∪)).
  unfold set_files. simpl. by rewrite insert_insert_eq.
Qed.

Lemma generateModulesDefinition_idempotent_witness :
  let st' := snd (@generateModulesDefinition (test_host true) twins_state) in
  @generateModulesDefinition (test_host true) st' = (Ok tt, st').
Proof.
  intros st'.
  apply (@generateModulesDefinition_idempotent (test_host true) twins_state st').
  - by destruct (@generateModulesDefinition (test_host true) twins_state) as [[[]|] ?] eqn:Hgen;
      [|vm_compute in Hgen].
  - vm_compute. reflexivity.
Defined.

(** ** The handle of a command *)

Lemma emit_all_resolve_calls (events : list string) (p : Promise) (on : bool) :
  resolve_calls
    (waitCompletion
       (emit_all events (mkCommandHandle p (mkChildProcess on ["exit"; "close"; "error"]))))
  = resolve_calls p + length (List.filter is_terminal events).
Proof.
  revert p. induction events as [|e events IH]; intros p; simpl; [lia|].
  unfold emit_all in *. simpl. rewrite emit_subscribed, IH.
  destruct (is_terminal e); simpl; [|done].
  unfold Promise_resolve. destruct (fulfilled p); simpl; lia.
Qed.

(** X16. The listeners of the completion promise stay subscribed.  On
    the handle a command returns, when the process object has an [on]
    method, [resolve] is called once for each [exit], [close] or [error]
    event the process emits, the first and every later one; without [on]
    it is called once, by the executor, and never again. *)
Theorem resolve_called_per_terminal_event `{Host} (cmd : COMMAND) (args : list string)
    (options : CommandOptions) (st st' : State) (handle : CommandHandle)
    (events : list string) :
  method_of cmd args options st = (Ok handle, st') →
  resolve_calls (waitCompletion (emit_all events handle))
  = if exec_has_on then length (List.filter is_terminal events) else 1.
Proof.
  rewrite method_of_runCommand.
  destruct (isInitialized (this st)) eqn:Hflag.
  - rewrite runCommand_initialized by done. intros [= <- _].
    unfold completion. simpl. destruct exec_has_on.
    + unfold ChildProcess_on. simpl. by rewrite emit_all_resolve_calls.
    + by rewrite emit_all_not_subscribed.
  - by rewrite runCommand_not_initialized.
Qed.

Lemma resolve_called_per_terminal_event_witness :
  ∃ handle st',
    @method_of (test_host true) RUN ["main"] (mkCommandOptions None) (test_initialized true)
    = (Ok handle, st')
    ∧ resolve_calls (waitCompletion (emit_all ["spawn"; "exit"; "close"] handle)) = 2.
Proof.
  eexists _, _. split; [vm_compute; reflexivity|].
  eapply (@resolve_called_per_terminal_event (test_host true) RUN ["main"]
            (mkCommandOptions None) (test_initialized true) _ _ ["spawn"; "exit"; "close"]).
  vm_compute. reflexivity.
Defined.

Lemma split_without_separator (sep : ascii) (a : string) :
  Str.has_char sep a = false → Str.split sep a = [a].
Proof.
  induction a as [|c a IH]; [done|]. simpl.
  case_decide as Hc; [done|]. intros Ha. by rewrite IH.
Qed.

Lemma split_at_separator (sep : ascii) (a r : string) :
  Str.has_char sep a = false →
  Str.split sep (a +:+ String sep r) = a :: Str.split sep r.
Proof.
  induction a as [|c a IH].
  { intros _. simpl. by rewrite decide_True. }
  simpl Str.has_char. case_decide as Hc; [done|]. intros Ha.
  change (String c a +:+ String sep r) with (String c (a +:+ String sep r)).
  cbn [Str.split]. rewrite decide_False by done. by rewrite IH.
Qed.

(** Joining on a separator and splitting on it gives the pieces back
    when none of them holds the separator. *)
Lemma split_join (sep : ascii) (xs : list string) :
  xs ≠ [] → Forall (fun x => Str.has_char sep x = false) xs →
  Str.split sep (Str.join (String sep "") xs) = xs.
Proof.
  induction xs as [|x xs IH]; [done|]. intros _ [Hx Hxs]%Forall_cons.
  destruct xs as [|x' xs]; [by apply split_without_separator|].
  rewrite join_cons by done.
  change (x +:+ String sep "" +:+ Str.join (String sep "") (x' :: xs))
    with (x +:+ String sep (Str.join (String sep "") (x' :: xs))).
  rewrite split_at_separator by done. by rewrite IH.
Qed.

(** X17. The arguments of a command reach the command line joined by
    single spaces and in no other way.  The command line of the process
    that [install], [build] or [run] spawns is the configured command, the
    path of the [alliage-scripts] binary of the sandbox, the name of the
    command and the arguments, each separated from the next by one space,
    nothing being quoted; the process runs in the sandbox directory.  So
    the arguments can be read back from the command line when none of them
    holds a space, and any list of arguments with the same join gives the
    same call. *)
Theorem command_line_joins_args `{Host} (cmd : COMMAND) (args : list string)
    (options : CommandOptions) (st : State) :
  isInitialized (this st) = true →
  ∃ handle s,
    method_of cmd args options st = (Ok handle, record_spawn s st)
    ∧ spawn_command s
      = command (config (this st)) +:+ " "
        +:+ path_resolve [sandboxPath (this st); "node_modules/.bin/alliage-scripts"]
        +:+ " " +:+ COMMAND_value cmd +:+ " " +:+ Str.join " " args
    ∧ spawn_cwd s = sandboxPath (this st)
    ∧ (args ≠ [] → Forall (fun a => Str.has_char " "%char a = false) args →
         Str.split " "%char (Str.join " " args) = args)
    ∧ (∀ args', Str.join " " args' = Str.join " " args →
         method_of cmd args' options st = (Ok handle, record_spawn s st)).
Proof.
  intros Hflag. eexists _, (spawn_of cmd args options st).
  split; [|split; [|split; [|split]]].
  - rewrite method_of_runCommand. by apply runCommand_initialized.
  - reflexivity.
  - reflexivity.
  - apply (split_join " "%char).
  - intros args' Hjoin. rewrite method_of_runCommand, runCommand_initialized by done.
    unfold spawn_of. by rewrite Hjoin.
Qed.

Lemma command_line_joins_args_witness :
  isInitialized (this (test_initialized true)) = true
  ∧ ∃ handle s,
      @method_of (test_host true) RUN ["--name"; "a b"] (mkCommandOptions None)
        (test_initialized true)
      = (Ok handle, record_spawn s (test_initialized true))
      ∧ spawn_command s
        = "node /work/.alliage-sandboxes/k3x9/node_modules/.bin/alliage-scripts run --name a b"
      ∧ @method_of (test_host true) RUN ["--name"; "a"; "b"] (mkCommandOptions None)
          (test_initialized true)
        = (Ok handle, record_spawn s (test_initialized true)).
Proof.
  split; [vm_compute; reflexivity|].
  destruct (@command_line_joins_args (test_host true) RUN ["--name"; "a b"]
              (mkCommandOptions None) (test_initialized true))
    as (handle & s & Hrun & Hline & _ & _ & Hsame).
  { vm_compute; reflexivity. }
  exists handle, s. split; [exact Hrun|]. split.
  - rewrite Hline. vm_compute. reflexivity.
  - by apply Hsame.
Defined.

(** ** A load that fails half way *)

(** X18. [loadConfig] is not atomic.  When the file of the scenario
    decodes and an entry of the merged [copyFiles] holds a token whose
    resolution throws, [loadConfig] throws that error with the object
    already holding the file merged on the previous configuration, no
    placeholder resolved. *)
Theorem loadConfig_fails_after_merge `{Host} (st : State) (content : json)
    (file : ConfigFile) (e : js_error) :
  files (world st) !! path_resolve [scenarioPath (this st); configFileName (this st)]
  = Some (JsonFile content) →
  as_Config content = Ok file →
  map_result (replacePlaceholder (this st))
    (copyFiles (merge_config (config (this st)) file)) = Throw e →
  loadConfig st
  = (Throw e, mkState (set_config (merge_config (config (this st)) file) (this st)) (world st)).
Proof.
  intros Hfile Hdecode Hcopy. unfold loadConfig.
  set (merged := merge_config (config (this st)) file) in *.
  rewrite bind_get_state.
  rewrite (bind_ok (readJson _) _ st st content) by by rewrite readJson_eq, Hfile.
  rewrite bind_lift, Hdecode, bind_update_this, bind_get_state. simpl this.
  fold merged. clearbody merged.
  rewrite (map_result_ext (replacePlaceholder (set_config merged (this st)))
             (replacePlaceholder (this st)))
    by (intros s; apply replacePlaceholder_set_config).
  change (copyFiles (config (set_config merged (this st)))) with (copyFiles merged).
  by rewrite bind_lift, Hcopy.
Qed.

Lemma loadConfig_fails_after_merge_witness :
  let st :=
    mkState test_sandbox
      (set_files
         (<[test_config_path :=
              JsonFile (JObj [("command", JStr "ts-node");
                              ("copyFiles", JArr [JStr "<valueOf>/src"])])]> test_files)
         test_world) in
  is_ok (fst (@loadConfig (test_host true) st)) = false
  ∧ config (this (snd (@loadConfig (test_host true) st)))
    = mkConfig "ts-node" ["<valueOf>/src"] ∅ [].
Proof.
  intros st.
  destruct (map_result (replacePlaceholder (this st)) ["<valueOf>/src"]) as [r|e] eqn:Hcopy;
    [by vm_compute in Hcopy|].
  rewrite (@loadConfig_fails_after_merge (test_host true) st
             (JObj [("command", JStr "ts-node"); ("copyFiles", JArr [JStr "<valueOf>/src"])])
             (mkConfigFile (Some "ts-node") (Some ["<valueOf>/src"]) None None) e).
  - split; reflexivity.
  - vm_compute. reflexivity.
  - reflexivity.
  - exact Hcopy.
Defined.
